(** * Keno: probability matrix and expected values (Keno_Main.cpp)

    A shallow embedding of the computational core of [Keno_Main.cpp]:
    the combinatorics helpers ([calcFactorial], [calcPartialFactorial],
    [calcCombinations]), the probability formula ([calcKenoProbability])
    and the two table-filling loops of [_tmain].

    Conventions of the embedding.
    - [WORD], [DWORD] and [QWORD] values are integers of [Z] kept in range
      by an explicit reduction modulo 2^16, 2^32 and 2^64.
    - [double] is the primitive IEEE-754 binary64 type [float]; every
      arithmetic step of the source is one primitive operation, in the
      source's order of evaluation.
    - Functions live in a small writer/error monad [W]: the log records
      the calls (the source's [DebugTrace] lines, plus one event per
      [calcFactorial] activation), and the outcome is [None] where the
      C++ program has no defined result (integer division by zero, an
      array index out of range).
    - Proofs about doubles are by evaluation of the primitive operations,
      but for one use of the Standard Library's specification of the
      primitive product ([FloatAxioms.mul_spec]): a zero times a finite
      factor is a zero.
    - Of [ExportDataToExcel] only the string handling is embedded (module
      [ExportPath]): the directory computed in [szDir] and the name given
      to [SaveAs].  [GetModulePath] is not part of the file: what it
      leaves in [szDir] is a parameter.  The calls into Excel are not
      modelled. *)

From Stdlib Require Import ZArith Lia List Bool QArith Qabs.
From Stdlib Require Import PrimFloat FloatOps SpecFloat Uint63.
From Stdlib Require Ascii String.
From Stdlib Require FloatAxioms.
From Stdlib Require Import Qpower.
Import ListNotations.

Local Open Scope Z_scope.

(** ** Machine integers *)

Module MachineInt.

Definition to_WORD  (z : Z) : Z := z mod 2 ^ 16.
Definition to_DWORD (z : Z) : Z := z mod 2 ^ 32.
Definition to_QWORD (z : Z) : Z := z mod 2 ^ 64.

Definition is_WORD  (z : Z) : Prop := 0 <= z < 2 ^ 16.
Definition is_DWORD (z : Z) : Prop := 0 <= z < 2 ^ 32.
Definition is_QWORD (z : Z) : Prop := 0 <= z < 2 ^ 64.

Lemma to_WORD_range z : is_WORD (to_WORD z).
Proof. unfold is_WORD, to_WORD. apply Z.mod_pos_bound. lia. Qed.

Lemma to_DWORD_range z : is_DWORD (to_DWORD z).
Proof. unfold is_DWORD, to_DWORD. apply Z.mod_pos_bound. lia. Qed.

Lemma to_QWORD_range z : is_QWORD (to_QWORD z).
Proof. unfold is_QWORD, to_QWORD. apply Z.mod_pos_bound. lia. Qed.

Lemma to_WORD_id z : is_WORD z -> to_WORD z = z.
Proof. unfold is_WORD, to_WORD. intros H. apply Z.mod_small. exact H. Qed.

Lemma to_DWORD_id z : is_DWORD z -> to_DWORD z = z.
Proof. unfold is_DWORD, to_DWORD. intros H. apply Z.mod_small. exact H. Qed.

Lemma to_QWORD_id z : is_QWORD z -> to_QWORD z = z.
Proof. unfold is_QWORD, to_QWORD. intros H. apply Z.mod_small. exact H. Qed.

End MachineInt.
Import MachineInt.

(** ** Doubles *)

Module Double.

(** Conversion of a (signed) [int] to [double]; exact below 2^53. *)
Definition of_int (z : Z) : float :=
  if z <? 0 then PrimFloat.opp (PrimFloat.of_uint63 (Uint63.of_Z (- z)))
  else PrimFloat.of_uint63 (Uint63.of_Z z).

(** Conversion of an unsigned 32-bit value to [double] (always exact). *)
Definition of_DWORD (z : Z) : float := PrimFloat.of_uint63 (Uint63.of_Z z).

(** The rational number a finite double stands for. *)
Definition SF2Q (x : spec_float) : option Q :=
  match x with
  | S754_zero _ => Some 0%Q
  | S754_finite s m e =>
      let v := (inject_Z (Z.pos m) * Qpower 2 e)%Q in
      Some (if s then Qopp v else v)
  | S754_infinity _ | S754_nan => None
  end.

Definition to_Q (f : float) : option Q := SF2Q (Prim2SF f).

(** The rational value, with 0 standing in for NaN and the infinities;
    used only next to a proof that the double is finite. *)
Definition Qval (f : float) : Q :=
  match to_Q f with Some q => q | None => 0%Q end.

Definition is_finite (f : float) : bool :=
  match to_Q f with Some _ => true | None => false end.

(** IEEE zero of either sign. *)
Definition is_zero (f : float) : bool := PrimFloat.is_zero f.

End Double.

(** ** Call log and the writer/error monad *)

Inductive Event : Type :=
| EvFactorial (wN : Z)
| EvPartialFactorial (wN wNumTerms : Z)
| EvCombinations (dwN dwR : Z)
| EvKenoProbability (dwNumMarked dwCaught : Z).

Definition W (A : Type) : Type := (list Event * option A)%type.

Definition ret {A} (a : A) : W A := ([], Some a).
Definition fail {A} : W A := ([], None).
Definition tell (e : Event) : W unit := ([e], Some tt).

Definition bind {A B} (m : W A) (k : A -> W B) : W B :=
  match m with
  | (t, None) => (t, None)
  | (t, Some a) => let (t', r) := k a in (t ++ t', r)
  end.

Definition trace {A} (m : W A) : list Event := fst m.
Definition value {A} (m : W A) : option A := snd m.

Declare Scope W_scope.
Delimit Scope W_scope with W.
Notation "x <- m ;; k" := (bind m (fun x => k))
  (at level 61, m at next level, right associativity) : W_scope.
Notation "m ;;; k" := (bind m (fun _ => k))
  (at level 61, right associativity) : W_scope.
Local Open Scope W_scope.

(** Unsigned 64-bit division; a zero divisor has no defined result. *)
Definition udiv64 (a b : Z) : W Z :=
  if b =? 0 then fail else ret (a / b).

(** ** The combinatorics helpers *)

(** [QWORD calcFactorial (WORD wN)]: recursion on [wN], the product taken
    in unsigned 64-bit arithmetic.  [fuel] bounds the recursion depth. *)
Fixpoint calcFactorial_rec (fuel : nat) (wN : Z) : W Z :=
  match fuel with
  | O => fail
  | S fuel' =>
      tell (EvFactorial wN) ;;;
      if 1 <? wN then
        r <- calcFactorial_rec fuel' (to_WORD (wN - 1)) ;;
        ret (to_QWORD (wN * r))
      else ret 1
  end.

Definition calcFactorial (wN : Z) : W Z :=
  calcFactorial_rec (S (Z.to_nat wN)) wN.

(** The [for] loop of [calcPartialFactorial]: [i] is a [WORD] counter,
    [wN - i] is computed in [int] and converted to [double]. *)
Fixpoint calcPartialFactorial_loop
         (fuel : nat) (wN wNumTerms i : Z) (fResult : float) : option float :=
  match fuel with
  | O => None
  | S fuel' =>
      if i <? wNumTerms then
        calcPartialFactorial_loop fuel' wN wNumTerms (to_WORD (i + 1))
                                  (fResult * Double.of_int (wN - i))%float
      else Some fResult
  end.

Definition calcPartialFactorial (wN wNumTerms : Z) : W float :=
  tell (EvPartialFactorial wN wNumTerms) ;;;
  match calcPartialFactorial_loop (S (Z.to_nat wNumTerms)) wN wNumTerms 0 1%float with
  | Some f => ret f
  | None => fail
  end.

(** [DWORD calcCombinations (DWORD dwN, DWORD dwR)]. *)
Definition calcCombinations (dwN dwR : Z) : W Z :=
  tell (EvCombinations dwN dwR) ;;;
  if dwR <=? dwN then
    qwNFactorial <- calcFactorial (to_WORD dwN) ;;
    qwRFactorial <- calcFactorial (to_WORD dwR) ;;
    qwDifFactorial <- calcFactorial (to_WORD (to_DWORD (dwN - dwR))) ;;
    q <- udiv64 qwNFactorial (to_QWORD (qwRFactorial * qwDifFactorial)) ;;
    ret (to_DWORD q)
  else ret 0.

(** ** The probability formula *)

Definition g_MAX_ROWS : Z := 20.
Definition g_MAX_COLS : Z := 21.
Definition g_TOTAL_BALLS : Z := 80.
Definition g_MAX_SELECTABLE_BALLS : Z := 20.

Definition calcKenoProbability (dwNumMarked dwCaught : Z) : W float :=
  tell (EvKenoProbability dwNumMarked dwCaught) ;;;
  dwNumCombinations <- calcCombinations dwNumMarked dwCaught ;;
  qwP1 <- calcPartialFactorial (to_WORD g_MAX_SELECTABLE_BALLS)
                               (to_WORD dwCaught) ;;
  qwP2 <- calcPartialFactorial (to_WORD (g_TOTAL_BALLS - g_MAX_SELECTABLE_BALLS))
                               (to_WORD (to_DWORD (dwNumMarked - dwCaught))) ;;
  qwP3 <- calcPartialFactorial (to_WORD g_TOTAL_BALLS) (to_WORD dwNumMarked) ;;
  ret (Double.of_DWORD dwNumCombinations * qwP1 * qwP2 / qwP3)%float.

(** ** Global tables *)

Definition g_MAX_PAYOUT_ROWS : Z := 9.
Definition g_MAX_PAYOUT_COLS : Z := 9.
Definition g_MAX_SPOTS_MARKED : Z := 9.

(** Row [i] is for [i + 1] spots marked, column [j] for [j + 1] balls
    caught. *)
Definition g_rgCatchPayOut : list (list float) :=
  [ [ 3;  0;  0;   0;   0;    0;    0;     0;     0 ];
    [ 0; 12;  0;   0;   0;    0;    0;     0;     0 ];
    [ 0;  1; 42;   0;   0;    0;    0;     0;     0 ];
    [ 0;  1;  3; 120;   0;    0;    0;     0;     0 ];
    [ 0;  0;  1;   9; 800;    0;    0;     0;     0 ];
    [ 0;  0;  1;   4;  88; 1500;    0;     0;     0 ];
    [ 0;  0;  0;   2;  20;  350;  700;     0;     0 ];
    [ 0;  0;  0;   0;   9;   90; 1500; 20000;     0 ];
    [ 0;  0;  0;   0;   4;   43; 3000;  4000; 25000 ] ]%float.

(** The mutable globals of the program. *)
Record Globals : Type := mkGlobals {
  g_rgProbability : list (list float);
  g_rgExpectedValue : list float
}.

(** Static initialisation: [= { 0.0 }] zero-fills both arrays. *)
Definition initial_globals : Globals :=
  {| g_rgProbability :=
       repeat (repeat 0%float (Z.to_nat g_MAX_COLS)) (Z.to_nat g_MAX_ROWS);
     g_rgExpectedValue := repeat 0%float (Z.to_nat g_MAX_SPOTS_MARKED) |}.

(** Array accesses; an index outside the array has no defined result. *)
Definition load {A} (a : list A) (i : Z) : W A :=
  if i <? 0 then fail
  else match nth_error a (Z.to_nat i) with
       | Some x => ret x
       | None => fail
       end.

Definition store {A} (a : list A) (i : Z) (x : A) : W (list A) :=
  if (i <? 0) || (Z.of_nat (length a) <=? i) then fail
  else ret (firstn (Z.to_nat i) a ++ x :: skipn (S (Z.to_nat i)) a).

Definition load2 {A} (a : list (list A)) (i j : Z) : W A :=
  row <- load a i ;; load row j.

Definition store2 {A} (a : list (list A)) (i j : Z) (x : A) : W (list (list A)) :=
  row <- load a i ;;
  row' <- store row j x ;;
  store a i row'.

(** ** The loops of [_tmain] *)

(** Indices [lo], [lo + 1], ..., [hi - 1]. *)
Definition Zrange (lo hi : Z) : list Z :=
  map (fun k => lo + Z.of_nat k) (seq 0 (Z.to_nat (hi - lo))).

(** [for (int i = lo; i < hi; i++) body], threading the state [s]. *)
Fixpoint for_each {S : Type} (idx : list Z) (body : Z -> S -> W S) (s : S) : W S :=
  match idx with
  | [] => ret s
  | i :: rest => s' <- body i s ;; for_each rest body s'
  end.

Definition for_range {S : Type} (lo hi : Z) (body : Z -> S -> W S) (s : S) : W S :=
  for_each (Zrange lo hi) body s.

(** Body of the inner loop that fills the probability matrix. *)
Definition probability_step (i j : Z) (g : Globals) : W Globals :=
  let iNumSpotsMarked := i + 1 in
  if iNumSpotsMarked >=? j then
    p <- calcKenoProbability (to_DWORD iNumSpotsMarked) (to_DWORD j) ;;
    rg <- store2 (g_rgProbability g) i j p ;;
    ret {| g_rgProbability := rg; g_rgExpectedValue := g_rgExpectedValue g |}
  else ret g.

Definition fill_probabilities (g : Globals) : W Globals :=
  for_range 0 g_MAX_ROWS
    (fun i g => for_range 0 g_MAX_COLS (fun j g => probability_step i j g) g) g.

(** Body of the inner loop that accumulates the expected values. *)
Definition expected_value_step (i j : Z) (g : Globals) : W Globals :=
  dPayout <- load2 g_rgCatchPayOut i j ;;
  if (Double.of_int 0 <? dPayout)%float then
    dKenoProb <- load2 (g_rgProbability g) i (j + 1) ;;
    ev <- load (g_rgExpectedValue g) i ;;
    rg <- store (g_rgExpectedValue g) i
                (ev + dKenoProb * dPayout / Double.of_int (i + 2))%float ;;
    ret {| g_rgProbability := g_rgProbability g; g_rgExpectedValue := rg |}
  else ret g.

Definition fill_expected_values (g : Globals) : W Globals :=
  for_range 0 g_MAX_SPOTS_MARKED
    (fun i g => for_range 0 g_MAX_SPOTS_MARKED
                  (fun j g => expected_value_step i j g) g) g.

(** The computational part of [_tmain] (the spreadsheet export that
    follows reads the two tables and is not modelled). *)
Definition _tmain : W Globals :=
  g <- fill_probabilities initial_globals ;;
  fill_expected_values g.

(** ** Reference notions from the specification *)

(** The mathematical factorial, without any machine width. *)
Fixpoint factorial_nat (n : nat) : Z :=
  match n with
  | O => 1
  | S k => Z.of_nat n * factorial_nat k
  end.

Definition factorial (n : Z) : Z := factorial_nat (Z.to_nat n).

(** [C(n, r) = n! / (r! * (n-r)!)], in unbounded integers. *)
Definition choose (n r : Z) : Z :=
  factorial n / (factorial r * factorial (n - r)).

(** The terms [n], [n - 1], ..., [n - k + 1]. *)
Definition descending_terms (n : Z) (k : nat) : list Z :=
  map (fun i => n - Z.of_nat i) (seq 0 k).

(** Their product, accumulated from [1.0] in double precision, highest
    term first. *)
Definition product_as_double (terms : list Z) : float :=
  fold_left (fun acc t => (acc * Double.of_int t)%float) terms 1%float.

Definition partialFactorial (n numTerms : Z) : float :=
  product_as_double (descending_terms n (Z.to_nat numTerms)).

(** Their product as an integer. *)
Definition product_exact (terms : list Z) : Z :=
  fold_left Z.mul terms 1.

(** The formula [C(numMarked, caught) * P1 * P2 / P3] of the
    specification, evaluated left to right in double precision. *)
Definition kenoProbability (numMarked caught : Z) : float :=
  (Double.of_DWORD (choose numMarked caught)
   * partialFactorial 20 caught
   * partialFactorial 60 (numMarked - caught)
   / partialFactorial 80 numMarked)%float.

(** The hypergeometric probability of exactly [caught] successes:
    population 80, 20 successes, sample size [numMarked]. *)
Definition hypergeometric (numMarked caught : Z) : Q :=
  (inject_Z (choose 20 caught * choose 60 (numMarked - caught))
   / inject_Z (choose 80 numMarked))%Q.

(** ** Reading the tables the way the specification indexes them *)

(** [returns m P]: the computation [m] has a result, and it satisfies
    [P]. *)
Definition returns {A} (m : W A) (P : A -> Prop) : Prop :=
  match value m with
  | Some a => P a
  | None => False
  end.

(** [Probability(marked, caught)]: row [marked - 1], column [caught]. *)
Definition Probability (g : Globals) (marked caught : Z) : float :=
  nth (Z.to_nat caught)
      (nth (Z.to_nat (marked - 1)) (g_rgProbability g) []) nan.

(** [Payout(spotsMarked, caught)]: row [spotsMarked - 1], column
    [caught - 1]. *)
Definition Payout (spotsMarked caught : Z) : float :=
  nth (Z.to_nat (caught - 1))
      (nth (Z.to_nat (spotsMarked - 1)) g_rgCatchPayOut []) nan.

(** [ExpectedValue(spotsMarked)]: entry [spotsMarked - 1]. *)
Definition ExpectedValue (g : Globals) (spotsMarked : Z) : float :=
  nth (Z.to_nat (spotsMarked - 1)) (g_rgExpectedValue g) nan.

(** The expected-value formula of the specification: the sum over
    [caught] in 1..9, in increasing order and in double precision, of
    [Probability * Payout / (spotsMarked + 1)], leaving out the terms
    whose payout is not strictly positive. *)
Definition expected_value_formula (g : Globals) (spotsMarked : Z) : float :=
  fold_left
    (fun acc caught =>
       if (0 <? Payout spotsMarked caught)%float
       then (acc + Probability g spotsMarked caught * Payout spotsMarked caught
                   / Double.of_int (spotsMarked + 1))%float
       else acc)
    (Zrange 1 10) 0%float.

(** The same sum with every term kept, zero payouts included. *)
Definition expected_value_all_terms (g : Globals) (spotsMarked : Z) : float :=
  fold_left
    (fun acc caught =>
       (acc + Probability g spotsMarked caught * Payout spotsMarked caught
              / Double.of_int (spotsMarked + 1))%float)
    (Zrange 1 10) 0%float.

(** Sum of row [marked] over the catch counts [0..marked]: of the
    rational values of the entries, and accumulated in double
    precision. *)
Definition row_sum_exact (g : Globals) (marked : Z) : Q :=
  fold_left Qplus
    (map (fun c => Double.Qval (Probability g marked c)) (Zrange 0 (marked + 1)))
    0%Q.

Definition row_sum_double (g : Globals) (marked : Z) : float :=
  fold_left (fun acc c => (acc + Probability g marked c)%float)
            (Zrange 0 (marked + 1)) 0%float.

(** A finite double in [[0, 1]]. *)
Definition is_probability (f : float) : bool :=
  match Double.to_Q f with
  | Some q => Qle_bool 0 q && Qle_bool q 1
  | None => false
  end.

Definition row_is_distribution (g : Globals) (marked : Z) : bool :=
  forallb (fun c => is_probability (Probability g marked c))
          (Zrange 0 (marked + 1)).

(** The arguments the pipeline is meant to use: marked counts 1..20
    with catches up to the marked count, factorials of at most 20, and
    partial factorials of the bases 20, 60 and 80 only. *)
Definition event_in_range (e : Event) : Prop :=
  match e with
  | EvFactorial w => 0 <= w <= 20
  | EvPartialFactorial n k => (n = 20 \/ n = 60 \/ n = 80) /\ 0 <= k <= 20
  | EvCombinations n r => 1 <= n <= 20 /\ 0 <= r <= n
  | EvKenoProbability m c => 1 <= m <= 20 /\ 0 <= c <= m
  end.

Definition event_in_rangeb (e : Event) : bool :=
  match e with
  | EvFactorial w => (0 <=? w) && (w <=? 20)
  | EvPartialFactorial n k =>
      ((n =? 20) || (n =? 60) || (n =? 80)) && (0 <=? k) && (k <=? 20)
  | EvCombinations n r => (1 <=? n) && (n <=? 20) && (0 <=? r) && (r <=? n)
  | EvKenoProbability m c => (1 <=? m) && (m <=? 20) && (0 <=? c) && (c <=? m)
  end.

(** The tables [_tmain] ends with. *)
Definition final_globals : Globals :=
  Eval vm_compute in
    match value _tmain with
    | Some g => g
    | None => initial_globals
    end.

(** ** Notions used by the further properties *)

(** The factorials of 0..65, exact and reduced modulo 2^64. *)
Definition factorial_table : list Z :=
  Eval vm_compute in map factorial (Zrange 0 66).

Definition factorial_mod_table : list Z :=
  Eval vm_compute in map (fun w => to_QWORD (factorial w)) (Zrange 0 66).

(** Does the division of [calcCombinations n r] have a non-zero divisor,
    and is the quotient the binomial coefficient exactly in the cases
    listed?  Read off the two tables. *)
Definition combinations_check (n r : Z) : bool :=
  let exact w := nth (Z.to_nat w) factorial_table 0 in
  let wrapped w := nth (Z.to_nat w) factorial_mod_table 0 in
  let divisor := to_QWORD (wrapped r * wrapped (n - r)) in
  negb (divisor =? 0)
  && Bool.eqb (to_DWORD (wrapped n / divisor)
               =? exact n / (exact r * exact (n - r)))
              ((n <=? 20) || (r =? 0) || (r =? n)
               || ((n =? 60) && ((r =? 1) || (r =? 59)))).

(** The declared dimensions of the two global arrays:
    [g_rgProbability[20][21]] and [g_rgExpectedValue[9]]. *)
Definition well_shaped (g : Globals) : Prop :=
  length (g_rgProbability g) = 20%nat
  /\ Forall (fun row => length row = 21%nat) (g_rgProbability g)
  /\ length (g_rgExpectedValue g) = 9%nat.

(** The expected-value sum of the specification, started from the value
    [ev0] the entry already holds. *)
Definition expected_value_from (ev0 : float) (g : Globals) (spotsMarked : Z)
  : float :=
  fold_left
    (fun acc caught =>
       if (0 <? Payout spotsMarked caught)%float
       then (acc + Probability g spotsMarked caught * Payout spotsMarked caught
                   / Double.of_int (spotsMarked + 1))%float
       else acc)
    (Zrange 1 10) ev0.

(** The calls of [calcKenoProbability] in a log, in order. *)
Definition keno_calls (t : list Event) : list (Z * Z) :=
  flat_map (fun e => match e with
                     | EvKenoProbability m c => [(m, c)]
                     | _ => []
                     end) t.

(** The pairs [(marked, caught)] with [caught <= marked], row by row. *)
Definition triangle : list (Z * Z) :=
  flat_map (fun m => map (pair m) (Zrange 0 (m + 1))) (Zrange 1 21).

Definition pair_eq_dec (p q : Z * Z) : {p = q} + {p <> q}.
Proof. decide equality; apply Z.eq_dec. Defined.

(** A check of a double against an integer, in integer arithmetic on the
    double's sign, mantissa and exponent: the double is within a
    relative error of 2^-49 of the integer, and equal to it when the
    integer is below 2^53. *)
Definition check_against (acc : float) (exact : Z) : bool :=
  match Prim2SF acc with
  | S754_zero _ => exact =? 0
  | S754_finite s m e =>
      let v := if s then Z.neg m else Z.pos m in
      match e with
      | Z.neg p =>
          let d := Z.pos (2 ^ p) in
          (Z.shiftl (Z.abs (v - exact * d)) 49 <=? Z.abs exact * d)
          && ((2 ^ 53 <=? exact) || (v =? exact * d))
      | _ =>
          let x := Z.shiftl v e in
          (Z.shiftl (Z.abs (x - exact)) 49 <=? Z.abs exact)
          && ((2 ^ 53 <=? exact) || (x =? exact))
      end
  | S754_infinity _ | S754_nan => false
  end.

(** The running double product and the running integer product, side by
    side, compared after each of [steps] factors [t], [t - 1], ... *)
Fixpoint scan (steps : nat) (t : Z) (acc : float) (exact : Z) : bool :=
  check_against acc exact
  && match steps with
     | O => true
     | S steps' =>
         scan steps' (t - 1) (acc * Double.of_int t)%float (exact * t)
     end.

(** [P] on [t], [t + 1], ..., [t + steps - 1]. *)
Fixpoint all_from (P : Z -> bool) (steps : nat) (t : Z) : bool :=
  match steps with
  | O => true
  | S steps' => P t && all_from P steps' (t + 1)
  end.

Definition neither_nan_nor_infinite (f : float) : bool :=
  negb (PrimFloat.is_nan f) && negb (PrimFloat.is_infinity f).

(** A double that is a zero of either sign. *)
Definition is_zero_double (f : float) : Prop :=
  exists s, Prim2SF f = S754_zero s.

(** The integer product of the terms of [calcPartialFactorial]. *)
Definition product (n numTerms : Z) : Z :=
  product_exact (descending_terms n (Z.to_nat numTerms)).

(** A finite double within a relative error of 2^-49 of an integer; a
    finite double whose value is an integer. *)
Definition within_2_49 (f : float) (exact : Z) : Prop :=
  exists q, Double.to_Q f = Some q
            /\ (Qabs (q - inject_Z exact)
                <= Qabs (inject_Z exact) * (1 # 562949953421312))%Q.

Definition exactly (f : float) (exact : Z) : Prop :=
  exists q, Double.to_Q f = Some q /\ (q == inject_Z exact)%Q.

(** ** The output path of [ExportDataToExcel] *)

Module ExportPath.
Import Ascii String.
Local Open Scope Z_scope.
Local Open Scope W_scope.

(** A [TCHAR] string is the list of its characters up to, and without,
    the terminating null; [szDir] is an array of [_MAX_PATH] of them. *)
Definition tstring : Type := list ascii.

Definition _MAX_PATH : Z := 260.
Definition backslash : ascii := "\"%char.

Definition g_szOutputDataPath : tstring := list_ascii_of_string "\Data\".
Definition g_szFileName : tstring := list_ascii_of_string "Keno.xlsx".
Definition szTempFileName : tstring := list_ascii_of_string "C:\Temp\Keno.xlsx".

(** [_countof] of a string literal counts its terminating null. *)
Definition _countof (s : tstring) : Z := Z.of_nat (List.length s) + 1.

Definition _tcslen (s : tstring) : Z := Z.of_nat (List.length s).

(** [_tcsrchr]: the index of the last occurrence of [c], if any. *)
Fixpoint _tcsrchr (s : tstring) (c : ascii) : option nat :=
  match s with
  | [] => None
  | x :: rest =>
      match _tcsrchr rest c with
      | Some k => Some (S k)
      | None => if Ascii.eqb x c then Some O else None
      end
  end.

(** Storing a null at index [k] ends the string there. *)
Definition terminate_at (s : tstring) (k : nat) : tstring := firstn k s.

(** [_tcsncat (szDir, src, count)]: appends at most [count] characters
    of [src], then a null; the null written past the last element of
    [szDir] has no defined result. *)
Definition _tcsncat (dest src : tstring) (count : Z) : W tstring :=
  let appended := firstn (Z.to_nat count) src in
  if _tcslen dest + _tcslen appended + 1 <=? _MAX_PATH
  then ret (dest ++ appended)
  else fail.


(** The directory handed to [PutDefaultFilePath].  [bGotModulePath]
    tells whether [GetModulePath] returned a path; [szDir] is what it
    left in the buffer. *)
Definition default_file_path (bGotModulePath : bool) (szDir : tstring)
  : W tstring :=
  if bGotModulePath then
    let nLoc := _tcslen szDir in
    if nLoc =? 0 then ret szDir
    else
      let szDir1 :=
        if Ascii.eqb (nth (Z.to_nat (nLoc - 1)) szDir zero) backslash
        then terminate_at szDir (Z.to_nat (nLoc - 1))
        else szDir in
      let szDir2 :=
        match _tcsrchr szDir1 backslash with
        | Some k => terminate_at szDir1 k
        | None => szDir1
        end in
      _tcsncat szDir2 g_szOutputDataPath
               (Z.min (_countof g_szOutputDataPath)
                      (_MAX_PATH - _tcslen szDir2))
  else ret szDir.

(** The end of [ExportDataToExcel]: what [szDir] becomes, and the name
    handed to [SaveAs]. *)
Definition save_name (szDir : tstring) : W (tstring * tstring) :=
  let nLen := _tcslen szDir in
  if negb (nLen =? 0) && (nLen + _countof g_szFileName <? _MAX_PATH) then
    szDir' <- _tcsncat szDir g_szFileName (_countof g_szFileName) ;;
    ret (szDir', g_szFileName)
  else ret (szDir, szTempFileName).

Definition trailing_backslash (b : bool) : tstring :=
  if b then [backslash] else [].

(** Both steps in sequence: the directory handed to
    [PutDefaultFilePath] and the name handed to [SaveAs]. *)
Definition export_paths (bGotModulePath : bool) (szDir : tstring)
  : W (tstring * tstring) :=
  dir <- default_file_path bGotModulePath szDir ;;
  r <- save_name dir ;;
  ret (dir, snd r).

End ExportPath.

(** * Properties *)

(** ** The monad *)

Section MonadFacts.
Context {A B : Type}.

Lemma value_ret (a : A) : value (ret a) = Some a.
Proof. reflexivity. Qed.

Lemma value_fail : value (@fail A) = None.
Proof. reflexivity. Qed.

Lemma value_bind (m : W A) (k : A -> W B) :
  value (bind m k) =
  match value m with Some a => value (k a) | None => None end.
Proof.
  destruct m as [t [a|]]; unfold bind, value; cbn [snd]; [|reflexivity].
  destruct (k a); reflexivity.
Qed.

Lemma trace_bind (m : W A) (k : A -> W B) :
  trace (bind m k) =
  match value m with
  | Some a => trace m ++ trace (k a)
  | None => trace m
  end.
Proof.
  destruct m as [t [a|]]; unfold bind, value, trace; cbn [fst snd];
    [|reflexivity].
  destruct (k a); reflexivity.
Qed.

End MonadFacts.

Lemma value_tell e : value (tell e) = Some tt.
Proof. reflexivity. Qed.

Lemma trace_tell e : trace (tell e) = [e].
Proof. reflexivity. Qed.

(** ** Doubles *)

Example to_Q_three_quarters :
  option_map Qred (Double.to_Q 0.75) = Some (3 # 4)%Q
  /\ option_map Qred (Double.to_Q (Double.of_int (-21))) = Some (-21 # 1)%Q
  /\ Double.to_Q infinity = None /\ Double.to_Q nan = None.
Proof. vm_compute. repeat split; reflexivity. Qed.

(** ** calcFactorial *)

Lemma factorial_step w : 1 <= w -> factorial w = w * factorial (w - 1).
Proof.
  intros Hw. unfold factorial.
  replace (Z.to_nat w) with (S (Z.to_nat (w - 1))) by lia.
  cbn [factorial_nat]. f_equal. lia.
Qed.

Lemma factorial_small w : w <= 1 -> factorial w = 1.
Proof.
  intros Hw. unfold factorial.
  destruct (Z.to_nat w) as [|[|k]] eqn:E; try reflexivity. lia.
Qed.

Lemma factorial_pos w : 0 < factorial w.
Proof.
  unfold factorial. induction (Z.to_nat w) as [|k IH]; cbn [factorial_nat]; lia.
Qed.

(** With enough fuel, the recursion returns [wN!] reduced modulo 2^64. *)
Lemma calcFactorial_rec_value fuel : forall w,
  is_WORD w -> (Z.to_nat w < fuel)%nat ->
  value (calcFactorial_rec fuel w) = Some (to_QWORD (factorial w)).
Proof.
  induction fuel as [|fuel IH]; intros w Hw Hf; [lia|].
  cbn [calcFactorial_rec]. rewrite value_bind, value_tell.
  destruct (1 <? w) eqn:E.
  - apply Z.ltb_lt in E.
    assert (Hw' : is_WORD (w - 1)) by (unfold is_WORD in *; lia).
    rewrite value_bind, (to_WORD_id _ Hw'), IH by (assumption || lia).
    rewrite value_ret, (factorial_step w) by lia.
    unfold to_QWORD. now rewrite Z.mul_mod_idemp_r by lia.
  - apply Z.ltb_ge in E. rewrite value_ret, factorial_small by lia.
    reflexivity.
Qed.

Lemma calcFactorial_value w :
  is_WORD w -> value (calcFactorial w) = Some (to_QWORD (factorial w)).
Proof. intros Hw. apply calcFactorial_rec_value; [assumption|lia]. Qed.

(** Every activation logged by [calcFactorial w] has an argument in
    [0..w]. *)
Lemma calcFactorial_rec_trace fuel : forall w e,
  is_WORD w -> In e (trace (calcFactorial_rec fuel w)) ->
  exists v, e = EvFactorial v /\ 0 <= v <= w.
Proof.
  induction fuel as [|fuel IH]; intros w e Hw Hin; [destruct Hin|].
  cbn [calcFactorial_rec] in Hin.
  rewrite trace_bind, value_tell, trace_tell in Hin.
  destruct Hin as [<-|Hin]; [exists w; unfold is_WORD in Hw; split; [reflexivity|lia]|].
  destruct (1 <? w) eqn:E; [|destruct Hin].
  apply Z.ltb_lt in E.
  assert (Hw' : is_WORD (w - 1)) by (unfold is_WORD in *; lia).
  rewrite (to_WORD_id _ Hw'), trace_bind in Hin.
  assert (Hin' : In e (trace (calcFactorial_rec fuel (w - 1)))).
  { destruct (value (calcFactorial_rec fuel (w - 1))); [|exact Hin].
    rewrite !in_app_iff in Hin. destruct Hin as [[]|[H|[]]]. exact H. }
  destruct (IH _ _ Hw' Hin') as (v & -> & Hv). exists v. split; [reflexivity|lia].
Qed.

(** Modulo 2^64 the factorial is zero exactly from 66 on. *)
Lemma factorial_66_wraps_to_zero w : 66 <= w -> to_QWORD (factorial w) = 0.
Proof.
  intros Hw. replace w with (66 + Z.of_nat (Z.to_nat (w - 66))) by lia.
  induction (Z.to_nat (w - 66)) as [|k IH].
  - vm_compute. reflexivity.
  - rewrite factorial_step by lia.
    replace (66 + Z.of_nat (S k) - 1) with (66 + Z.of_nat k) by lia.
    unfold to_QWORD in *. rewrite <- Z.mul_mod_idemp_r, IH by lia.
    rewrite Z.mul_0_r. reflexivity.
Qed.

(** Case analysis of an integer known to lie in [lo .. lo + n - 1]. *)
Ltac enum_Z z lo n :=
  lazymatch n with
  | O => exfalso; lia
  | S ?k =>
      let H := fresh "Hne" in
      destruct (Z.eq_dec z lo) as [->|H];
      [ | let lo' := eval vm_compute in (lo + 1) in
          let Hlo := fresh "Hlo" in
          assert (Hlo : lo' <= z) by lia; clear H;
          enum_Z z lo' k ]
  end.

Lemma factorial_below_66_nonzero w :
  0 <= w <= 65 -> to_QWORD (factorial w) <> 0.
Proof. intros Hw. enum_Z w 0 66%nat; vm_compute; discriminate. Qed.

Lemma factorial_exact_upto_20 w :
  0 <= w <= 20 -> to_QWORD (factorial w) = factorial w.
Proof. intros Hw. enum_Z w 0 21%nat; vm_compute; reflexivity. Qed.

(** ** calcCombinations *)

(** Above [n] the guard fails: the call is logged and 0 returned, with
    no factorial computed. *)
Lemma calcCombinations_short_circuit (n r : Z) :
  n < r -> calcCombinations n r = ([EvCombinations n r], Some 0).
Proof.
  intros H. unfold calcCombinations.
  destruct (r <=? n) eqn:E; [apply Z.leb_le in E; lia|reflexivity].
Qed.

(** C7: whenever [r > n], [calcCombinations n r] returns 0, and its log
    holds the call itself only: the guard is decided before any
    factorial is computed. *)
Theorem calcCombinations_guard (n r : Z) :
  r > n ->
  value (calcCombinations n r) = Some 0
  /\ trace (calcCombinations n r) = [EvCombinations n r].
Proof.
  intros H. rewrite calcCombinations_short_circuit by lia.
  split; reflexivity.
Qed.

Lemma calcCombinations_guard_witness :
  5 > 3
  /\ value (calcCombinations 3 5) = Some 0
  /\ trace (calcCombinations 3 5) = [EvCombinations 3 5].
Proof.
  assert (H : 5 > 3) by lia.
  split; [exact H|]. exact (calcCombinations_guard 3 5 H).
Defined.

(** The value of [calcCombinations] on any pair of [DWORD]s that passes
    the guard, in terms of the mathematical factorial. *)
Lemma calcCombinations_value (n r : Z) :
  is_DWORD n -> is_DWORD r -> r <= n ->
  value (calcCombinations n r) =
  let qwN := to_QWORD (factorial (to_WORD n)) in
  let qwR := to_QWORD (factorial (to_WORD r)) in
  let qwD := to_QWORD (factorial (to_WORD (n - r))) in
  if to_QWORD (qwR * qwD) =? 0 then None
  else Some (to_DWORD (qwN / to_QWORD (qwR * qwD))).
Proof.
  intros Hn Hr Hle. unfold calcCombinations.
  rewrite value_bind, value_tell.
  replace (r <=? n) with true by (symmetry; apply Z.leb_le; assumption).
  rewrite (to_DWORD_id (n - r)) by (unfold is_DWORD in *; lia).
  rewrite value_bind, calcFactorial_value by apply to_WORD_range.
  rewrite value_bind, calcFactorial_value by apply to_WORD_range.
  rewrite value_bind, calcFactorial_value by apply to_WORD_range.
  rewrite value_bind. unfold udiv64. cbv zeta.
  destruct (_ =? 0); reflexivity.
Qed.

(** On the arguments of the pipeline nothing wraps: the three
    factorials are exact, the denominator fits 64 bits and divides
    [n!]. *)
Lemma calcCombinations_small (n r : Z) :
  0 <= r <= n -> n <= 20 ->
  value (calcCombinations n r) = Some (choose n r)
  /\ value (calcFactorial n) = Some (factorial n)
  /\ value (calcFactorial r) = Some (factorial r)
  /\ value (calcFactorial (n - r)) = Some (factorial (n - r))
  /\ factorial n < 2 ^ 64
  /\ 0 < factorial r * factorial (n - r) < 2 ^ 64
  /\ choose n r * (factorial r * factorial (n - r)) = factorial n
  /\ trace (calcCombinations n r)
     = EvCombinations n r
       :: trace (calcFactorial n) ++ trace (calcFactorial r)
          ++ trace (calcFactorial (n - r)).
Proof.
  intros Hr Hn.
  enum_Z n 0 21%nat; enum_Z r 0 21%nat; try (exfalso; lia);
    vm_compute; repeat split; reflexivity.
Qed.

(** C5: for [r <= n <= 20], [calcCombinations n r] returns the binomial
    coefficient [n! / (r! * (n-r)!)]; the three factorials it computes
    are the exact factorials, neither they nor the denominator product
    exceed 64 bits, and the division is exact.  In particular
    [calcCombinations 9 5] is 126. *)
Theorem calcCombinations_binomial (n r : Z) :
  0 <= r <= n -> n <= 20 ->
  value (calcCombinations n r) = Some (choose n r)
  /\ value (calcFactorial n) = Some (factorial n)
  /\ value (calcFactorial r) = Some (factorial r)
  /\ value (calcFactorial (n - r)) = Some (factorial (n - r))
  /\ factorial n < 2 ^ 64
  /\ 0 < factorial r * factorial (n - r) < 2 ^ 64
  /\ choose n r * (factorial r * factorial (n - r)) = factorial n
  /\ value (calcCombinations 9 5) = Some 126.
Proof.
  intros Hr Hn.
  destruct (calcCombinations_small n r Hr Hn)
    as (H1 & H2 & H3 & H4 & H5 & H6 & H7 & _).
  repeat (split; [assumption|]). vm_compute. reflexivity.
Qed.

Lemma calcCombinations_binomial_witness :
  0 <= 5 <= 9 /\ 9 <= 20 /\ value (calcCombinations 9 5) = Some (choose 9 5).
Proof.
  assert (H1 : 0 <= 5 <= 9) by lia.
  assert (H2 : 9 <= 20) by lia.
  split; [exact H1|]. split; [exact H2|].
  exact (proj1 (calcCombinations_binomial 9 5 H1 H2)).
Defined.

(** C6 (as the code has it): for every [DWORD] [n] whose low 16 bits are
    at most 65, in particular for every [n] in [0..65], both
    [calcCombinations n 0] and [calcCombinations n n] return 1. *)
Theorem calcCombinations_edges (n : Z) :
  is_DWORD n -> to_WORD n <= 65 ->
  value (calcCombinations n 0) = Some 1
  /\ value (calcCombinations n n) = Some 1.
Proof.
  intros Hn Hw.
  pose proof (to_WORD_range n) as Hrange.
  assert (Hnz : to_QWORD (factorial (to_WORD n)) <> 0)
    by (apply factorial_below_66_nonzero; unfold is_WORD in Hrange; lia).
  pose proof (to_QWORD_range (factorial (to_WORD n))) as Hq.
  assert (H0 : is_DWORD 0) by (unfold is_DWORD; lia).
  split.
  - rewrite calcCombinations_value by (assumption || (unfold is_DWORD in Hn; lia)).
    cbv zeta. rewrite Z.sub_0_r.
    change (to_QWORD (factorial (to_WORD 0))) with 1. rewrite Z.mul_1_l.
    rewrite (to_QWORD_id _ Hq).
    destruct (_ =? 0) eqn:E; [apply Z.eqb_eq in E; contradiction|].
    rewrite Z_div_same_full by assumption. reflexivity.
  - rewrite calcCombinations_value by (assumption || lia).
    cbv zeta. rewrite Z.sub_diag.
    change (to_QWORD (factorial (to_WORD 0))) with 1. rewrite Z.mul_1_r.
    rewrite (to_QWORD_id _ Hq).
    destruct (_ =? 0) eqn:E; [apply Z.eqb_eq in E; contradiction|].
    rewrite Z_div_same_full by assumption. reflexivity.
Qed.

Lemma calcCombinations_edges_witness :
  is_DWORD 65 /\ to_WORD 65 <= 65
  /\ value (calcCombinations 65 0) = Some 1
  /\ value (calcCombinations 65 65) = Some 1.
Proof.
  assert (H1 : is_DWORD 65) by (unfold is_DWORD; lia).
  assert (H2 : to_WORD 65 <= 65) by (vm_compute; discriminate).
  split; [exact H1|]. split; [exact H2|].
  exact (calcCombinations_edges 65 H1 H2).
Defined.

(** From 66 on (in the low 16 bits) the 64-bit factorial is 0 and both
    calls divide by zero. *)
Lemma calcCombinations_edges_undefined (n : Z) :
  is_DWORD n -> 66 <= to_WORD n ->
  value (calcCombinations n 0) = None
  /\ value (calcCombinations n n) = None.
Proof.
  intros Hn Hw.
  pose proof (factorial_66_wraps_to_zero _ Hw) as Hz.
  split.
  - rewrite calcCombinations_value by (assumption || (unfold is_DWORD in *; lia)).
    cbv zeta. rewrite Z.sub_0_r, Hz, Z.mul_0_r. reflexivity.
  - rewrite calcCombinations_value by (assumption || lia).
    cbv zeta. rewrite Hz, Z.mul_0_l. reflexivity.
Qed.

(** C6 (as stated) fails at [n = 66]: the divisor [0! * 66!] is 0
    modulo 2^64, the division has no result, and neither call returns
    1. *)
Lemma calcCombinations_66_not_1 :
  value (calcCombinations 66 0) <> Some 1
  /\ value (calcCombinations 66 66) <> Some 1
  /\ value (calcCombinations 66 0) = None
  /\ value (calcCombinations 66 66) = None.
Proof. vm_compute. repeat split; try discriminate; reflexivity. Qed.

(** ** calcPartialFactorial *)

Definition times_term (acc : float) (t : Z) : float :=
  (acc * Double.of_int t)%float.

(** [d] iterations remain when the counter is [i]: the loop multiplies
    by the terms [n - i], ..., [n - (i + d - 1)] and stops. *)
Lemma calcPartialFactorial_loop_spec (n k : Z) (d : nat) :
  forall fuel i acc,
    is_WORD k -> 0 <= i -> i + Z.of_nat d = k -> (d < fuel)%nat ->
    calcPartialFactorial_loop fuel n k i acc =
    Some (fold_left times_term
            (map (fun j => n - Z.of_nat j) (seq (Z.to_nat i) d)) acc).
Proof.
  induction d as [|d IH]; intros fuel i acc Hk Hi Hd Hf;
    (destruct fuel as [|fuel]; [lia|]); cbn [calcPartialFactorial_loop].
  - replace (i <? k) with false by (symmetry; apply Z.ltb_ge; lia).
    reflexivity.
  - replace (i <? k) with true by (symmetry; apply Z.ltb_lt; lia).
    rewrite to_WORD_id by (unfold is_WORD in *; lia).
    rewrite IH by (assumption || lia).
    replace (Z.to_nat (i + 1)) with (S (Z.to_nat i)) by lia.
    cbn [seq map fold_left]. unfold times_term at 3.
    rewrite Z2Nat.id by assumption. reflexivity.
Qed.

(** The source comment's example, with the terms it really takes. *)
Example calcPartialFactorial_10_4 :
  value (calcPartialFactorial 10 4) = Some 5040%float.
Proof. vm_compute. reflexivity. Qed.

(** On the three bases of the pipeline the double product is within
    a relative error of 2^-52 of the integer product, and it is that
    integer itself up to ten terms. *)
Definition partialFactorial_accurate (n k : Z) : bool :=
  match Double.to_Q (partialFactorial n k) with
  | Some q =>
      let exact := inject_Z (product_exact (descending_terms n (Z.to_nat k))) in
      Qle_bool (Qabs (q - exact)) (exact * (1 # 4503599627370496))
      && (if k <=? 10 then Qeq_bool q exact else true)
  | None => false
  end.

Lemma partialFactorial_pipeline_accuracy (n k : Z) :
  In n [20; 60; 80] -> 0 <= k <= 20 -> partialFactorial_accurate n k = true.
Proof.
  intros Hn Hk.
  destruct Hn as [<-|[<-|[<-|[]]]];
    enum_Z k 0 21%nat; vm_compute; reflexivity.
Qed.

(** ** calcKenoProbability *)

(** C1: for [numMarked] in 1..20 and [caught] in 0..numMarked,
    [calcKenoProbability] returns the double
    [C(numMarked, caught) * P1 * P2 / P3] with [P1], [P2], [P3] the
    partial factorials of 20, 60 and 80; that double is finite and
    agrees with the hypergeometric probability (population 80, 20
    drawn, sample [numMarked]) to a relative error of 2^-51. *)
Theorem calcKenoProbability_formula (numMarked caught : Z) :
  1 <= numMarked <= 20 -> 0 <= caught <= numMarked ->
  value (calcKenoProbability numMarked caught)
  = Some (kenoProbability numMarked caught)
  /\ Double.is_finite (kenoProbability numMarked caught) = true
  /\ (Qabs (Double.Qval (kenoProbability numMarked caught)
            - hypergeometric numMarked caught)
      <= hypergeometric numMarked caught * (1 # 2251799813685248))%Q.
Proof.
  intros Hm Hc.
  enum_Z numMarked 1 20%nat; enum_Z caught 0 21%nat; try (exfalso; lia);
    (split; [vm_compute; reflexivity|]);
    (split; [vm_compute; reflexivity|]);
    apply Qle_bool_iff; vm_compute; reflexivity.
Qed.

Lemma calcKenoProbability_formula_witness :
  1 <= 9 <= 20 /\ 0 <= 5 <= 9
  /\ value (calcKenoProbability 9 5) = Some (kenoProbability 9 5).
Proof.
  assert (H1 : 1 <= 9 <= 20) by lia.
  assert (H2 : 0 <= 5 <= 9) by lia.
  split; [exact H1|]. split; [exact H2|].
  exact (proj1 (calcKenoProbability_formula 9 5 H1 H2)).
Defined.

(** ** The loops of [_tmain] *)

Lemma Forall_forallb {A} (P : A -> Prop) (p : A -> bool) :
  (forall a, p a = true -> P a) ->
  forall l, forallb p l = true -> Forall P l.
Proof.
  intros Hp l. induction l as [|a l IH]; cbn [forallb]; intros H.
  - constructor.
  - apply andb_prop in H. destruct H as [Ha Hl].
    constructor; [apply Hp; exact Ha|apply IH; exact Hl].
Qed.

Lemma event_in_rangeb_sound e : event_in_rangeb e = true -> event_in_range e.
Proof.
  destruct e; cbn [event_in_rangeb event_in_range]; intros H;
    rewrite ?andb_true_iff, ?orb_true_iff, ?Z.leb_le, ?Z.eqb_eq in H; lia.
Qed.

(** [_tmain] runs to completion, and its table-filling loops are the
    only source of calls. *)
Lemma tmain_value : value _tmain = Some final_globals.
Proof. vm_compute. reflexivity. Qed.

Lemma fill_probabilities_value :
  value (fill_probabilities initial_globals)
  = Some {| g_rgProbability := g_rgProbability final_globals;
            g_rgExpectedValue := g_rgExpectedValue initial_globals |}.
Proof. vm_compute. reflexivity. Qed.

Lemma tmain_trace : trace _tmain = trace (fill_probabilities initial_globals).
Proof. vm_compute. reflexivity. Qed.

Lemma tmain_trace_in_range : Forall event_in_range (trace _tmain).
Proof.
  apply (Forall_forallb _ _ event_in_rangeb_sound).
  vm_compute. reflexivity.
Qed.

(** A cell above the diagonal is passed over: no call, no store. *)
Lemma probability_step_skip (i j : Z) (g : Globals) :
  i + 1 < j -> probability_step i j g = ret g.
Proof.
  intros H. unfold probability_step. cbv zeta.
  destruct (i + 1 >=? j) eqn:E; [|reflexivity].
  apply Z.geb_le in E. lia.
Qed.

(** C3: for [m] in 1..20 and [c] in (m+1)..20 the entry for [(m, c)] of
    the final matrix is [0.0], as it was initially; [_tmain] never calls
    [calcKenoProbability m c], its loop body for that cell being the
    identity. *)
Theorem impossible_catch_stays_zero (m c : Z) :
  1 <= m <= 20 -> m < c <= 20 ->
  returns _tmain (fun g => Probability g m c = 0%float
                           /\ value (load2 (g_rgProbability g) (m - 1) c)
                              = Some 0%float)
  /\ Probability initial_globals m c = 0%float
  /\ ~ In (EvKenoProbability m c) (trace _tmain)
  /\ (forall g, probability_step (m - 1) c g = ret g).
Proof.
  intros Hm Hc. unfold returns. rewrite tmain_value.
  split; [|split; [|split]].
  - enum_Z m 1 20%nat; enum_Z c 2 19%nat; try (exfalso; lia);
      vm_compute; split; reflexivity.
  - enum_Z m 1 20%nat; enum_Z c 2 19%nat; try (exfalso; lia);
      vm_compute; reflexivity.
  - intros Hin.
    pose proof (proj1 (Forall_forall _ _) tmain_trace_in_range _ Hin) as H.
    cbn [event_in_range] in H. lia.
  - intros g. apply probability_step_skip. lia.
Qed.

Lemma impossible_catch_stays_zero_witness :
  1 <= 9 <= 20 /\ 9 < 10 <= 20
  /\ returns _tmain (fun g => Probability g 9 10 = 0%float
                              /\ value (load2 (g_rgProbability g) (9 - 1) 10)
                                 = Some 0%float).
Proof.
  assert (H1 : 1 <= 9 <= 20) by lia.
  assert (H2 : 9 < 10 <= 20) by lia.
  split; [exact H1|]. split; [exact H2|].
  exact (proj1 (impossible_catch_stays_zero 9 10 H1 H2)).
Defined.


(** What it means for a logged call to stay within exact 64-bit
    arithmetic. *)
Definition call_is_exact (e : Event) : Prop :=
  match e with
  | EvFactorial w =>
      0 <= w <= 20
      /\ value (calcFactorial w) = Some (factorial w)
      /\ factorial w < 2 ^ 64
  | EvCombinations n r =>
      1 <= n <= 20 /\ 0 <= r <= n
      /\ 0 < factorial r * factorial (n - r) < 2 ^ 64
      /\ value (calcCombinations n r) = Some (choose n r)
      /\ trace (calcCombinations n r)
         = EvCombinations n r
           :: trace (calcFactorial n) ++ trace (calcFactorial r)
              ++ trace (calcFactorial (n - r))
  | EvKenoProbability m c => 1 <= m <= 20 /\ 0 <= c <= m
  | EvPartialFactorial n k => (n = 20 \/ n = 60 \/ n = 80) /\ 0 <= k <= 20
  end.

Lemma event_in_range_exact e : event_in_range e -> call_is_exact e.
Proof.
  destruct e as [w|n k|n r|m c]; cbn [event_in_range call_is_exact]; intros H.
  - split; [exact H|].
    destruct (calcCombinations_small w w ltac:(lia) ltac:(lia))
      as (_ & H2 & _ & _ & H5 & _).
    split; assumption.
  - exact H.
  - destruct H as [Hn Hr].
    destruct (calcCombinations_small n r Hr ltac:(lia))
      as (H1 & _ & _ & _ & _ & H6 & _ & H8).
    repeat (split; [assumption|]). assumption.
  - exact H.
Qed.

(** C9: while the probability matrix is filled, every [calcFactorial]
    activation has an argument of at most 20 and returns the exact
    factorial; every [calcCombinations] call has [n] in 1..20 (the
    marked count) and [r <= n], its denominator [r! * (n-r)!] is positive
    and below 2^64, and it returns [C(n, r)]; the bases 60 and 80 only
    ever reach [calcPartialFactorial].  The loops run to completion. *)
Theorem pipeline_factorials_exact :
  Forall call_is_exact (trace (fill_probabilities initial_globals))
  /\ value (fill_probabilities initial_globals) <> None.
Proof.
  split.
  - rewrite <- tmain_trace.
    apply (Forall_impl _ event_in_range_exact). exact tmain_trace_in_range.
  - rewrite fill_probabilities_value. discriminate.
Qed.

(** C2: for [spotsMarked] in 1..9, the expected value [_tmain] stores is
    the sum over [caught] in 1..9 of
    [Probability(spotsMarked, caught) * Payout(spotsMarked, caught)
     / (spotsMarked + 1)], the terms with a payout that is not strictly
    positive being left out (which changes nothing: the sum of all
    terms is the same double), and the probability being read at row
    [spotsMarked - 1], column [caught] of the matrix, where it is the
    value of the probability formula. *)
Theorem expected_value_matches_formula (spotsMarked : Z) :
  1 <= spotsMarked <= 9 ->
  returns _tmain (fun g =>
    ExpectedValue g spotsMarked = expected_value_formula g spotsMarked
    /\ value (load (g_rgExpectedValue g) (spotsMarked - 1))
       = Some (expected_value_formula g spotsMarked)
    /\ expected_value_all_terms g spotsMarked
       = expected_value_formula g spotsMarked
    /\ forall caught, 1 <= caught <= 9 ->
         value (load2 (g_rgProbability g) (spotsMarked - 1) caught)
         = Some (Probability g spotsMarked caught)
         /\ Probability g spotsMarked caught
            = if caught <=? spotsMarked
              then kenoProbability spotsMarked caught
              else 0%float).
Proof.
  intros Hs. unfold returns. rewrite tmain_value.
  split; [|split; [|split]].
  - enum_Z spotsMarked 1 9%nat; vm_compute; reflexivity.
  - enum_Z spotsMarked 1 9%nat; vm_compute; reflexivity.
  - enum_Z spotsMarked 1 9%nat; vm_compute; reflexivity.
  - intros caught Hc.
    enum_Z spotsMarked 1 9%nat; enum_Z caught 1 9%nat;
      vm_compute; split; reflexivity.
Qed.

Lemma expected_value_matches_formula_witness :
  1 <= 9 <= 9
  /\ returns _tmain (fun g =>
       ExpectedValue g 9 = expected_value_formula g 9
       /\ value (load (g_rgExpectedValue g) (9 - 1))
          = Some (expected_value_formula g 9)
       /\ expected_value_all_terms g 9 = expected_value_formula g 9
       /\ forall caught, 1 <= caught <= 9 ->
            value (load2 (g_rgProbability g) (9 - 1) caught)
            = Some (Probability g 9 caught)
            /\ Probability g 9 caught
               = if caught <=? 9 then kenoProbability 9 caught else 0%float).
Proof.
  assert (H : 1 <= 9 <= 9) by lia.
  split; [exact H|]. exact (expected_value_matches_formula 9 H).
Defined.

(** The end-to-end scenario of the specification: one spot marked. *)
Example expected_value_one_spot :
  ExpectedValue final_globals 1
  = (Probability final_globals 1 1 * 3 / 2)%float
  /\ ExpectedValue final_globals 1 = 0.375%float.
Proof. vm_compute. split; reflexivity. Qed.

(** C4: for [m] in 1..20 the entries of row [m] for the catches [0..m]
    are finite doubles in [[0, 1]] whose sum is within 1e-9 of 1, be
    the sum taken exactly or accumulated in double precision. *)
Theorem probability_row_sums_to_one (m : Z) :
  1 <= m <= 20 ->
  returns _tmain (fun g =>
    row_is_distribution g m = true
    /\ (Qabs (row_sum_exact g m - 1) <= 1 # 1000000000)%Q
    /\ Double.is_finite (row_sum_double g m) = true
    /\ (Qabs (Double.Qval (row_sum_double g m) - 1) <= 1 # 1000000000)%Q).
Proof.
  intros Hm. unfold returns. rewrite tmain_value.
  split; [|split; [|split]].
  - enum_Z m 1 20%nat; vm_compute; reflexivity.
  - enum_Z m 1 20%nat; apply Qle_bool_iff; vm_compute; reflexivity.
  - enum_Z m 1 20%nat; vm_compute; reflexivity.
  - enum_Z m 1 20%nat; apply Qle_bool_iff; vm_compute; reflexivity.
Qed.

Lemma probability_row_sums_to_one_witness :
  1 <= 9 <= 20
  /\ returns _tmain (fun g =>
       row_is_distribution g 9 = true
       /\ (Qabs (row_sum_exact g 9 - 1) <= 1 # 1000000000)%Q
       /\ Double.is_finite (row_sum_double g 9) = true
       /\ (Qabs (Double.Qval (row_sum_double g 9) - 1) <= 1 # 1000000000)%Q).
Proof.
  assert (H : 1 <= 9 <= 20) by lia.
  split; [exact H|]. exact (probability_row_sums_to_one 9 H).
Defined.

(** ** calcKenoProbability above the marked count *)

(** The value of [calcKenoProbability], call by call. *)
Lemma calcKenoProbability_value (m c : Z) :
  value (calcKenoProbability m c) =
  match value (calcCombinations m c) with
  | None => None
  | Some dwNumCombinations =>
  match value (calcPartialFactorial 20 (to_WORD c)) with
  | None => None
  | Some qwP1 =>
  match value (calcPartialFactorial 60 (to_WORD (to_DWORD (m - c)))) with
  | None => None
  | Some qwP2 =>
  match value (calcPartialFactorial 80 (to_WORD m)) with
  | None => None
  | Some qwP3 =>
      Some (Double.of_DWORD dwNumCombinations * qwP1 * qwP2 / qwP3)%float
  end end end end.
Proof.
  unfold calcKenoProbability.
  change (to_WORD g_MAX_SELECTABLE_BALLS) with 20.
  change (to_WORD (g_TOTAL_BALLS - g_MAX_SELECTABLE_BALLS)) with 60.
  change (to_WORD g_TOTAL_BALLS) with 80.
  rewrite value_bind, value_tell, value_bind.
  destruct (value (calcCombinations m c)); [|reflexivity].
  rewrite value_bind.
  destruct (value (calcPartialFactorial 20 (to_WORD c))); [|reflexivity].
  rewrite value_bind.
  destruct (value (calcPartialFactorial 60 _)); [|reflexivity].
  rewrite value_bind.
  destruct (value (calcPartialFactorial 80 _)); reflexivity.
Qed.

(** Running the loop up to an earlier bound [k'] first, then on to [k],
    is running it up to [k]. *)
Lemma calcPartialFactorial_loop_split (n k k' : Z) (d : nat) :
  forall fuel i acc,
    is_WORD k -> 0 <= i -> i + Z.of_nat d = k' -> k' <= k ->
    (Z.to_nat (k - i) < fuel)%nat ->
    calcPartialFactorial_loop fuel n k i acc =
    match calcPartialFactorial_loop (S d) n k' i acc with
    | Some acc' => calcPartialFactorial_loop (fuel - d) n k k' acc'
    | None => None
    end.
Proof.
  induction d as [|d IH]; intros fuel i acc Hk Hi Hd Hle Hf.
  - cbn [calcPartialFactorial_loop].
    replace (i <? k') with false by (symmetry; apply Z.ltb_ge; lia).
    rewrite Nat.sub_0_r. f_equal. lia.
  - destruct fuel as [|fuel]; [lia|].
    cbn [calcPartialFactorial_loop Nat.sub].
    replace (i <? k) with true by (symmetry; apply Z.ltb_lt; lia).
    replace (i <? k') with true by (symmetry; apply Z.ltb_lt; lia).
    rewrite to_WORD_id by (unfold is_WORD in *; lia).
    apply IH; try assumption; lia.
Qed.

(** The first 65516 terms of base 60 pass through [60 - 60 = 0], and
    what they leave is a zero. *)
Lemma base_60_first_65516_terms :
  calcPartialFactorial_loop (S (Z.to_nat 65516)) 60 65516 0 1%float
  = Some neg_zero.
Proof. vm_compute. reflexivity. Qed.

(** A term count of 65516 or more takes the product of base 60 through
    the factor 0; from there on it is a zero whose sign alternates with
    each negative factor. *)
Lemma base_60_product_through_zero (k : Z) :
  65516 <= k <= 65535 ->
  value (calcPartialFactorial 60 k)
  = Some (if Z.even k then neg_zero else zero).
Proof.
  intros Hk. unfold calcPartialFactorial.
  rewrite value_bind, value_tell.
  rewrite (calcPartialFactorial_loop_split 60 k 65516 (Z.to_nat 65516))
    by (unfold is_WORD; lia).
  rewrite base_60_first_65516_terms.
  replace (S (Z.to_nat k) - Z.to_nat 65516)%nat
    with (S (Z.to_nat (k - 65516))) by lia.
  enum_Z k 65516 20%nat; vm_compute; reflexivity.
Qed.

Lemma wrapped_term_count (m c : Z) :
  0 <= m -> m < c <= 20 ->
  to_WORD (to_DWORD (m - c)) = 65536 - (c - m).
Proof.
  intros Hm Hc. unfold to_DWORD.
  replace (m - c) with ((-1) * 2 ^ 32 + (2 ^ 32 - (c - m))) by lia.
  rewrite Z.add_comm, Z.mod_add by lia.
  rewrite Z.mod_small by lia.
  unfold to_WORD.
  replace (2 ^ 32 - (c - m)) with (65536 - (c - m) + 65535 * 2 ^ 16) by lia.
  rewrite Z.mod_add by lia. apply Z.mod_small. lia.
Qed.

(** C10: for [numMarked] in 0..20 and [caught] in (numMarked+1)..20, a
    direct call [calcKenoProbability numMarked caught] (one [_tmain]
    never makes) returns a zero: it compares equal to [0.0] and is
    neither NaN nor infinite.  [calcCombinations] gives 0 without
    computing a factorial; [numMarked - caught] wraps to a term count of
    at least 65516, for which the partial factorial of base 60 is a
    finite zero.  The sign bit of the zero returned is set exactly when
    [caught - numMarked] is even. *)
Theorem calcKenoProbability_above_marked (numMarked caught : Z) :
  0 <= numMarked <= 20 -> numMarked < caught <= 20 ->
  returns (calcKenoProbability numMarked caught)
    (fun fResult =>
       (fResult =? 0)%float = true
       /\ PrimFloat.is_nan fResult = false
       /\ PrimFloat.is_infinity fResult = false
       /\ fResult = if Z.even (caught - numMarked) then neg_zero else zero)
  /\ calcCombinations numMarked caught
     = ([EvCombinations numMarked caught], Some 0)
  /\ 65516 <= to_WORD (to_DWORD (numMarked - caught))
  /\ returns (calcPartialFactorial 60 (to_WORD (to_DWORD (numMarked - caught))))
       (fun qwP2 => Double.is_zero qwP2 = true
                    /\ Double.is_finite qwP2 = true)
  /\ Forall (fun e => e <> EvKenoProbability numMarked caught) (trace _tmain).
Proof.
  intros Hm Hc.
  pose proof (wrapped_term_count numMarked caught ltac:(lia) Hc) as Hk.
  assert (Hp2 : value (calcPartialFactorial 60
                         (to_WORD (to_DWORD (numMarked - caught))))
                = Some (if Z.even (caught - numMarked)
                        then neg_zero else zero)).
  { rewrite Hk, base_60_product_through_zero by lia.
    replace (65536 - (caught - numMarked))
      with (caught - numMarked + 2 * 32768 - 2 * (caught - numMarked)) by lia.
    rewrite Z.even_sub, Z.even_add, !Z.even_mul. cbn [Z.even orb].
    destruct (Z.even (caught - numMarked)); reflexivity. }
  split; [|split; [|split; [|split]]].
  - unfold returns.
    rewrite calcKenoProbability_value, Hp2, calcCombinations_short_circuit
      by lia.
    cbn [value snd].
    enum_Z numMarked 0 21%nat; enum_Z caught 1 20%nat; try (exfalso; lia);
      vm_compute; repeat split; reflexivity.
  - apply calcCombinations_short_circuit. lia.
  - lia.
  - unfold returns. rewrite Hp2.
    destruct (Z.even (caught - numMarked)); vm_compute; split; reflexivity.
  - apply (Forall_impl _ (P := event_in_range)); [|exact tmain_trace_in_range].
    intros e He ->. cbn [event_in_range] in He. lia.
Qed.

Lemma calcKenoProbability_above_marked_witness :
  0 <= 0 <= 20 /\ 0 < 2 <= 20
  /\ returns (calcKenoProbability 0 2)
       (fun fResult =>
          (fResult =? 0)%float = true
          /\ PrimFloat.is_nan fResult = false
          /\ PrimFloat.is_infinity fResult = false
          /\ fResult = if Z.even (2 - 0) then neg_zero else zero).
Proof.
  assert (H1 : 0 <= 0 <= 20) by lia.
  assert (H2 : 0 < 2 <= 20) by lia.
  split; [exact H1|]. split; [exact H2|].
  exact (proj1 (calcKenoProbability_above_marked 0 2 H1 H2)).
Defined.

(** * Further properties of the combinatorics helpers *)

Lemma Zrange_In (lo hi z : Z) : lo <= z < hi -> In z (Zrange lo hi).
Proof.
  intros H. unfold Zrange. apply in_map_iff.
  exists (Z.to_nat (z - lo)). split; [lia|]. apply in_seq. lia.
Qed.

Lemma factorial_from_21_exceeds_64_bits w : 21 <= w -> 2 ^ 64 <= factorial w.
Proof.
  intros Hw. replace w with (21 + Z.of_nat (Z.to_nat (w - 21))) by lia.
  induction (Z.to_nat (w - 21)) as [|k IH].
  - vm_compute. discriminate.
  - rewrite factorial_step by lia.
    replace (21 + Z.of_nat (S k) - 1) with (21 + Z.of_nat k) by lia.
    nia.
Qed.

(** The activations of [calcFactorial w]: [w], [w - 1], ..., down to 1
    (the single activation 0 when [w] is 0). *)
Lemma calcFactorial_rec_activations fuel : forall w,
  is_WORD w -> (Z.to_nat w < fuel)%nat ->
  trace (calcFactorial_rec fuel w)
  = map EvFactorial (descending_terms w (Z.to_nat (Z.max w 1))).
Proof.
  induction fuel as [|fuel IH]; intros w Hw Hf; [lia|].
  cbn [calcFactorial_rec]. rewrite trace_bind, value_tell, trace_tell.
  destruct (1 <? w) eqn:E.
  - apply Z.ltb_lt in E.
    assert (Hw' : is_WORD (w - 1)) by (unfold is_WORD in *; lia).
    rewrite trace_bind, (to_WORD_id _ Hw').
    rewrite calcFactorial_rec_value, IH by (assumption || lia).
    replace (Z.to_nat (Z.max w 1)) with (S (Z.to_nat (Z.max (w - 1) 1))) by lia.
    unfold descending_terms. cbn [seq map app trace fst ret].
    rewrite Z.sub_0_r, app_nil_r. f_equal.
    rewrite <- seq_shift, !map_map. apply map_ext. intros k. f_equal. lia.
  - apply Z.ltb_ge in E.
    replace (Z.to_nat (Z.max w 1)) with 1%nat by lia.
    unfold descending_terms. cbn [seq map app trace fst ret].
    rewrite Z.sub_0_r. reflexivity.
Qed.

(** X1: for every [WORD] [wN], [calcFactorial wN] returns [wN!] reduced
    modulo 2^64, after exactly [max wN 1] activations, whose arguments
    are [wN], [wN - 1], ..., 1 in this order. *)
Theorem calcFactorial_modular (wN : Z) :
  is_WORD wN ->
  value (calcFactorial wN) = Some (factorial wN mod 2 ^ 64)
  /\ trace (calcFactorial wN)
     = map EvFactorial (descending_terms wN (Z.to_nat (Z.max wN 1)))
  /\ Z.of_nat (length (trace (calcFactorial wN))) = Z.max wN 1.
Proof.
  intros Hw.
  assert (Ht : trace (calcFactorial wN)
               = map EvFactorial (descending_terms wN (Z.to_nat (Z.max wN 1))))
    by (apply calcFactorial_rec_activations; [assumption|lia]).
  split; [apply calcFactorial_value; assumption|].
  split; [exact Ht|].
  rewrite Ht. unfold descending_terms. rewrite !length_map, length_seq. lia.
Qed.

Lemma calcFactorial_modular_witness :
  is_WORD 25
  /\ value (calcFactorial 25) = Some (factorial 25 mod 2 ^ 64).
Proof.
  assert (H : is_WORD 25) by (unfold is_WORD; lia).
  split; [exact H|]. exact (proj1 (calcFactorial_modular 25 H)).
Defined.

(** X2: on [WORD]s, [calcFactorial wN] is the true factorial exactly
    when [wN <= 20]; from 21 on the 64-bit product has wrapped. *)
Theorem calcFactorial_exact_iff (wN : Z) :
  is_WORD wN ->
  (value (calcFactorial wN) = Some (factorial wN) <-> wN <= 20).
Proof.
  intros Hw. rewrite calcFactorial_value by assumption.
  split.
  - intros H. injection H as H.
    destruct (Z_le_gt_dec wN 20) as [Hle|Hgt]; [exact Hle|exfalso].
    pose proof (factorial_from_21_exceeds_64_bits wN ltac:(lia)) as Hbig.
    pose proof (to_QWORD_range (factorial wN)) as Hr.
    unfold is_QWORD in Hr. lia.
  - intros Hle. f_equal. apply factorial_exact_upto_20.
    unfold is_WORD in Hw. lia.
Qed.

Lemma calcFactorial_exact_iff_witness :
  is_WORD 21 /\ (value (calcFactorial 21) = Some (factorial 21) <-> 21 <= 20).
Proof.
  assert (H : is_WORD 21) by (unfold is_WORD; lia).
  split; [exact H|]. exact (calcFactorial_exact_iff 21 H).
Defined.

(** X3: on [WORD]s, [calcFactorial wN] returns 0 exactly when
    [wN >= 66]: 66! is the first factorial divisible by 2^64. *)
Theorem calcFactorial_zero_iff (wN : Z) :
  is_WORD wN ->
  (value (calcFactorial wN) = Some 0 <-> 66 <= wN).
Proof.
  intros Hw. rewrite calcFactorial_value by assumption.
  split.
  - intros H. injection H as H.
    destruct (Z_le_gt_dec 66 wN) as [Hle|Hgt]; [exact Hle|exfalso].
    apply (factorial_below_66_nonzero wN); [unfold is_WORD in Hw; lia|exact H].
  - intros H. f_equal. apply factorial_66_wraps_to_zero. exact H.
Qed.

Lemma calcFactorial_zero_iff_witness :
  is_WORD 66 /\ (value (calcFactorial 66) = Some 0 <-> 66 <= 66).
Proof.
  assert (H : is_WORD 66) by (unfold is_WORD; lia).
  split; [exact H|]. exact (calcFactorial_zero_iff 66 H).
Defined.

(** X4: [calcCombinations] is symmetric: for [DWORD]s with [r <= n],
    choosing [r] and choosing [n - r] give the same outcome, be it a
    value (right or wrapped) or a division by zero. *)
Theorem calcCombinations_symmetric (n r : Z) :
  is_DWORD n -> 0 <= r <= n ->
  value (calcCombinations n (n - r)) = value (calcCombinations n r).
Proof.
  intros Hn Hr.
  rewrite !calcCombinations_value by (unfold is_DWORD in *; lia).
  cbv zeta. replace (n - (n - r)) with r by lia.
  rewrite (Z.mul_comm (to_QWORD (factorial (to_WORD (n - r))))).
  reflexivity.
Qed.

Lemma calcCombinations_symmetric_witness :
  is_DWORD 30 /\ 0 <= 7 <= 30
  /\ value (calcCombinations 30 (30 - 7)) = value (calcCombinations 30 7).
Proof.
  assert (H1 : is_DWORD 30) by (unfold is_DWORD; lia).
  assert (H2 : 0 <= 7 <= 30) by lia.
  split; [exact H1|]. split; [exact H2|].
  exact (calcCombinations_symmetric 30 7 H1 H2).
Defined.

(** X5: [calcCombinations] only sees the low 16 bits of its arguments
    once the guard [r <= n] has passed: two pairs of [DWORD]s that pass
    it and agree modulo 2^16 have the same outcome. *)
Theorem calcCombinations_low_16_bits (n r n' r' : Z) :
  is_DWORD n -> is_DWORD n' -> 0 <= r <= n -> 0 <= r' <= n' ->
  to_WORD n = to_WORD n' -> to_WORD r = to_WORD r' ->
  value (calcCombinations n r) = value (calcCombinations n' r').
Proof.
  intros Hn Hn' Hr Hr' En Er.
  rewrite !calcCombinations_value by (unfold is_DWORD in *; lia).
  assert (Ed : to_WORD (n - r) = to_WORD (n' - r')).
  { unfold to_WORD in *.
    rewrite (Zminus_mod n r), (Zminus_mod n' r'), En, Er. reflexivity. }
  rewrite En, Er, Ed. reflexivity.
Qed.

Lemma calcCombinations_low_16_bits_witness :
  is_DWORD 65545 /\ is_DWORD 9 /\ 0 <= 5 <= 65545 /\ 0 <= 5 <= 9
  /\ to_WORD 65545 = to_WORD 9 /\ to_WORD 5 = to_WORD 5
  /\ value (calcCombinations 65545 5) = value (calcCombinations 9 5).
Proof.
  assert (H1 : is_DWORD 65545) by (unfold is_DWORD; lia).
  assert (H2 : is_DWORD 9) by (unfold is_DWORD; lia).
  assert (H3 : 0 <= 5 <= 65545) by lia.
  assert (H4 : 0 <= 5 <= 9) by lia.
  assert (H5 : to_WORD 65545 = to_WORD 9) by reflexivity.
  assert (H6 : to_WORD 5 = to_WORD 5) by reflexivity.
  repeat (split; [assumption|]).
  exact (calcCombinations_low_16_bits 65545 5 9 5 H1 H2 H3 H4 H5 H6).
Defined.

Lemma factorial_tables_sound (w : Z) :
  0 <= w <= 65 ->
  nth (Z.to_nat w) factorial_table 0 = factorial w
  /\ nth (Z.to_nat w) factorial_mod_table 0 = to_QWORD (factorial w).
Proof. intros Hw. enum_Z w 0 66%nat; vm_compute; split; reflexivity. Qed.

Lemma combinations_check_upto_65 :
  forallb (fun n => forallb (combinations_check n) (Zrange 0 (n + 1)))
          (Zrange 0 66) = true.
Proof. vm_compute. reflexivity. Qed.

(** X6: for [0 <= r <= n <= 65], [calcCombinations n r] never divides by
    zero, and the value it returns is the binomial coefficient exactly
    when [n <= 20], [r = 0] or [r = n], and by coincidence at [(60, 1)]
    and [(60, 59)]: from [n = 21] on every other result is corrupted by
    the 64-bit wrap of [n!]. *)
Theorem calcCombinations_upto_65 (n r : Z) :
  0 <= r <= n -> n <= 65 ->
  returns (calcCombinations n r)
          (fun v => v = choose n r <->
                    (n <= 20 \/ r = 0 \/ r = n
                     \/ (n = 60 /\ (r = 1 \/ r = 59)))).
Proof.
  intros Hr Hn.
  pose proof (proj1 (forallb_forall _ _) combinations_check_upto_65 n
                (Zrange_In 0 66 n ltac:(lia))) as H.
  cbv beta in H.
  pose proof (proj1 (forallb_forall _ _) H r
                (Zrange_In 0 (n + 1) r ltac:(lia))) as Hc.
  unfold combinations_check in Hc. cbv zeta in Hc.
  destruct (factorial_tables_sound n ltac:(lia)) as [En En'].
  destruct (factorial_tables_sound r ltac:(lia)) as [Er Er'].
  destruct (factorial_tables_sound (n - r) ltac:(lia)) as [Ed Ed'].
  rewrite En, En', Er, Er', Ed, Ed' in Hc.
  apply andb_prop in Hc. destruct Hc as [Hnz Hc].
  unfold returns.
  rewrite calcCombinations_value by (unfold is_DWORD; lia).
  cbv zeta. rewrite !to_WORD_id by (unfold is_WORD; lia).
  destruct (_ =? 0); [discriminate Hnz|].
  apply eqb_prop in Hc. fold (choose n r) in Hc.
  rewrite <- Z.eqb_eq, Hc.
  rewrite !orb_true_iff, andb_true_iff, orb_true_iff, Z.leb_le, !Z.eqb_eq.
  tauto.
Qed.

Lemma calcCombinations_upto_65_witness :
  0 <= 1 <= 21 /\ 21 <= 65
  /\ returns (calcCombinations 21 1)
             (fun v => v = choose 21 1 <->
                       (21 <= 20 \/ 1 = 0 \/ 1 = 21
                        \/ (21 = 60 /\ (1 = 1 \/ 1 = 59)))).
Proof.
  assert (H1 : 0 <= 1 <= 21) by lia.
  assert (H2 : 21 <= 65) by lia.
  split; [exact H1|]. split; [exact H2|].
  exact (calcCombinations_upto_65 21 1 H1 H2).
Defined.

(** X7: for every [DWORD] [n], [calcCombinations n 0] and
    [calcCombinations n n] return 1 when the low 16 bits of [n] are at
    most 65, and divide by zero otherwise. *)
Theorem calcCombinations_edges_defined_iff (n : Z) :
  is_DWORD n ->
  value (calcCombinations n 0) = (if to_WORD n <=? 65 then Some 1 else None)
  /\ value (calcCombinations n n) = (if to_WORD n <=? 65 then Some 1 else None).
Proof.
  intros Hn.
  pose proof (to_WORD_range n) as Hrange. unfold is_WORD in Hrange.
  pose proof (to_QWORD_range (factorial (to_WORD n))) as Hq.
  assert (H0 : is_DWORD 0) by (unfold is_DWORD; lia).
  assert (Hn0 : 0 <= n) by (unfold is_DWORD in Hn; lia).
  rewrite !calcCombinations_value by (assumption || lia).
  cbv zeta. rewrite Z.sub_0_r, Z.sub_diag.
  change (to_QWORD (factorial (to_WORD 0))) with 1.
  rewrite Z.mul_1_l, Z.mul_1_r, (to_QWORD_id _ Hq).
  destruct (to_WORD n <=? 65) eqn:E.
  - apply Z.leb_le in E.
    pose proof (factorial_below_66_nonzero (to_WORD n) ltac:(lia)) as Hnz.
    destruct (_ =? 0) eqn:E0; [apply Z.eqb_eq in E0; contradiction|].
    rewrite Z_div_same_full by assumption. split; reflexivity.
  - apply Z.leb_gt in E.
    rewrite factorial_66_wraps_to_zero by lia. split; reflexivity.
Qed.

Lemma calcCombinations_edges_defined_iff_witness :
  is_DWORD 70
  /\ value (calcCombinations 70 0) = (if to_WORD 70 <=? 65 then Some 1 else None).
Proof.
  assert (H : is_DWORD 70) by (unfold is_DWORD; lia).
  split; [exact H|]. exact (proj1 (calcCombinations_edges_defined_iff 70 H)).
Defined.

(** * Further properties of the partial factorial and the probability *)

Lemma calcPartialFactorial_value (n k : Z) :
  is_WORD k ->
  value (calcPartialFactorial n k) = Some (partialFactorial n k).
Proof.
  intros Hk. unfold calcPartialFactorial. rewrite value_bind, value_tell.
  rewrite (calcPartialFactorial_loop_spec n k (Z.to_nat k))
    by (assumption || (unfold is_WORD in Hk; lia)).
  reflexivity.
Qed.

(** X8: one more term multiplies the result by the next lower factor:
    for [numTerms < 65535], [calcPartialFactorial n (numTerms + 1)] is
    [calcPartialFactorial n numTerms] times [n - numTerms], taken in
    [int] (so negative once [numTerms > n]) and converted to double. *)
Theorem calcPartialFactorial_next_term (n numTerms : Z) :
  0 <= numTerms < 65535 ->
  returns (calcPartialFactorial n numTerms)
    (fun p => value (calcPartialFactorial n (numTerms + 1))
              = Some (p * Double.of_int (n - numTerms))%float).
Proof.
  intros Hk. unfold returns.
  rewrite !calcPartialFactorial_value by (unfold is_WORD; lia).
  unfold partialFactorial, product_as_double, descending_terms.
  replace (Z.to_nat (numTerms + 1)) with (Z.to_nat numTerms + 1)%nat by lia.
  rewrite seq_app, map_app, fold_left_app. cbn [seq map fold_left Nat.add].
  rewrite Z2Nat.id by lia. reflexivity.
Qed.

Lemma calcPartialFactorial_next_term_witness :
  0 <= 3 < 65535
  /\ returns (calcPartialFactorial 10 3)
       (fun p => value (calcPartialFactorial 10 (3 + 1))
                 = Some (p * Double.of_int (10 - 3))%float).
Proof.
  assert (H : 0 <= 3 < 65535) by lia.
  split; [exact H|]. exact (calcPartialFactorial_next_term 10 3 H).
Defined.

(** X9: taken with all its terms, the partial factorial is the
    factorial: for [n <= 20], [calcPartialFactorial n n] is the double
    of the integer [calcFactorial n] returns, without rounding. *)
Theorem calcPartialFactorial_all_terms (n : Z) :
  0 <= n <= 20 ->
  returns (calcFactorial n)
    (fun qw => value (calcPartialFactorial n n) = Some (Double.of_int qw)
               /\ option_map Qred (Double.to_Q (Double.of_int qw))
                  = Some (inject_Z qw)).
Proof.
  intros Hn. enum_Z n 0 21%nat; vm_compute; split; reflexivity.
Qed.

Lemma calcPartialFactorial_all_terms_witness :
  0 <= 20 <= 20
  /\ returns (calcFactorial 20)
       (fun qw => value (calcPartialFactorial 20 20) = Some (Double.of_int qw)
                  /\ option_map Qred (Double.to_Q (Double.of_int qw))
                  = Some (inject_Z qw)).
Proof.
  assert (H : 0 <= 20 <= 20) by lia.
  split; [exact H|]. exact (calcPartialFactorial_all_terms 20 H).
Defined.

(** X10: on the bases the pipeline uses (20, 60 and 80) and up to 20
    terms, [calcPartialFactorial] returns a finite double within a
    relative error of 2^-52 of the integer product of its terms, and
    that integer itself up to ten terms. *)
Theorem calcPartialFactorial_accuracy (n numTerms : Z) :
  n = 20 \/ n = 60 \/ n = 80 -> 0 <= numTerms <= 20 ->
  returns (calcPartialFactorial n numTerms)
    (fun p => partialFactorial_accurate n numTerms = true
              /\ p = partialFactorial n numTerms
              /\ exists q,
                   Double.to_Q p = Some q
                   /\ (Qabs (q - inject_Z (product_exact
                                 (descending_terms n (Z.to_nat numTerms))))
                       <= inject_Z (product_exact
                                 (descending_terms n (Z.to_nat numTerms)))
                          * (1 # 4503599627370496))%Q
                   /\ (numTerms <= 10 ->
                       (q == inject_Z (product_exact
                                 (descending_terms n (Z.to_nat numTerms))))%Q)).
Proof.
  intros Hn Hk. unfold returns.
  rewrite calcPartialFactorial_value by (unfold is_WORD; lia).
  assert (Hacc : partialFactorial_accurate n numTerms = true).
  { apply partialFactorial_pipeline_accuracy; [|exact Hk].
    cbn [In]. destruct Hn as [-> | [-> | ->]]; auto. }
  split; [exact Hacc|]. split; [reflexivity|].
  unfold partialFactorial_accurate in Hacc.
  destruct (Double.to_Q (partialFactorial n numTerms)) as [q|];
    [|discriminate Hacc].
  apply andb_prop in Hacc. destruct Hacc as [Hle Heq].
  exists q. split; [reflexivity|]. split.
  - apply Qle_bool_iff. exact Hle.
  - intros H10. replace (numTerms <=? 10) with true in Heq
      by (symmetry; apply Z.leb_le; exact H10).
    apply Qeq_bool_iff. exact Heq.
Qed.

Lemma calcPartialFactorial_accuracy_witness :
  (80 = 20 \/ 80 = 60 \/ 80 = 80) /\ 0 <= 20 <= 20
  /\ returns (calcPartialFactorial 80 20)
       (fun p => partialFactorial_accurate 80 20 = true
                 /\ p = partialFactorial 80 20
                 /\ exists q,
                      Double.to_Q p = Some q
                      /\ (Qabs (q - inject_Z (product_exact
                                    (descending_terms 80 (Z.to_nat 20))))
                          <= inject_Z (product_exact
                                    (descending_terms 80 (Z.to_nat 20)))
                             * (1 # 4503599627370496))%Q
                      /\ (20 <= 10 ->
                          (q == inject_Z (product_exact
                                    (descending_terms 80 (Z.to_nat 20))))%Q)).
Proof.
  assert (H1 : 80 = 20 \/ 80 = 60 \/ 80 = 80) by (right; right; reflexivity).
  assert (H2 : 0 <= 20 <= 20) by lia.
  split; [exact H1|]. split; [exact H2|].
  exact (calcPartialFactorial_accuracy 80 20 H1 H2).
Defined.

(** X12: for [numMarked] in 1..20 and [caught] in 0..numMarked the
    probability returned is strictly between 0 and 1. *)
Theorem calcKenoProbability_strictly_between (numMarked caught : Z) :
  1 <= numMarked <= 20 -> 0 <= caught <= numMarked ->
  returns (calcKenoProbability numMarked caught)
    (fun p => (0 <? p)%float = true /\ (p <? 1)%float = true).
Proof.
  intros Hm Hc.
  enum_Z numMarked 1 20%nat; enum_Z caught 0 21%nat; try (exfalso; lia);
    vm_compute; split; reflexivity.
Qed.

Lemma calcKenoProbability_strictly_between_witness :
  1 <= 20 <= 20 /\ 0 <= 20 <= 20
  /\ returns (calcKenoProbability 20 20)
       (fun p => (0 <? p)%float = true /\ (p <? 1)%float = true).
Proof.
  assert (H1 : 1 <= 20 <= 20) by lia.
  assert (H2 : 0 <= 20 <= 20) by lia.
  split; [exact H1|]. split; [exact H2|].
  exact (calcKenoProbability_strictly_between 20 20 H1 H2).
Defined.

(** * Further properties of the loops of [_tmain] *)

Section LoopFacts.
Context {S : Type}.
Variable body : Z -> S -> W S.

Lemma value_for_each_cons (i : Z) (rest : list Z) (s : S) :
  value (for_each (i :: rest) body s)
  = match value (body i s) with
    | Some s' => value (for_each rest body s')
    | None => None
    end.
Proof. cbn [for_each]. apply value_bind. Qed.

(** A property every iteration keeps is kept by the loop. *)
Lemma for_each_invariant (I : S -> Prop) (idx : list Z) :
  (forall i s s', In i idx -> I s -> value (body i s) = Some s' -> I s') ->
  forall s s', I s -> value (for_each idx body s) = Some s' -> I s'.
Proof.
  induction idx as [|i rest IH]; intros Hbody s s' Hs Hv.
  - cbn in Hv. injection Hv as <-. exact Hs.
  - rewrite value_for_each_cons in Hv.
    destruct (value (body i s)) as [s1|] eqn:E; [|discriminate Hv].
    apply (IH (fun j a b Hj => Hbody j a b (or_intror Hj)) s1 s');
      [|exact Hv].
    apply (Hbody i s s1); [left; reflexivity|exact Hs|exact E].
Qed.

(** A loop whose iterations log nothing logs nothing. *)
Lemma for_each_silent (idx : list Z) :
  (forall i s, In i idx -> trace (body i s) = []) ->
  forall s, trace (for_each idx body s) = [].
Proof.
  induction idx as [|i rest IH]; intros Hbody s; [reflexivity|].
  cbn [for_each]. rewrite trace_bind, Hbody by (left; reflexivity).
  destruct (value (body i s)); [|reflexivity].
  apply IH. intros j a Hj. apply Hbody. right. exact Hj.
Qed.

End LoopFacts.

Lemma trace_load {A} (a : list A) (i : Z) : trace (load a i) = [].
Proof.
  unfold load. destruct (i <? 0); [reflexivity|].
  destruct (nth_error a (Z.to_nat i)); reflexivity.
Qed.

Lemma trace_store {A} (a : list A) (i : Z) (x : A) :
  trace (store a i x) = [].
Proof. unfold store. destruct (_ || _); reflexivity. Qed.

Lemma trace_load2 {A} (a : list (list A)) (i j : Z) :
  trace (load2 a i j) = [].
Proof.
  unfold load2. rewrite trace_bind, trace_load.
  destruct (value (load a i)); [cbn [app]; apply trace_load|reflexivity].
Qed.

Lemma expected_value_step_silent (i j : Z) (g : Globals) :
  trace (expected_value_step i j g) = [].
Proof.
  unfold expected_value_step. rewrite trace_bind, trace_load2.
  destruct (value (load2 g_rgCatchPayOut i j)) as [dPayout|]; [|reflexivity].
  cbn [app]. destruct (_ <? dPayout)%float; [|reflexivity].
  rewrite trace_bind, trace_load2.
  destruct (value (load2 _ i (j + 1))); [|reflexivity].
  cbn [app]. rewrite trace_bind, trace_load.
  destruct (value (load _ i)); [|reflexivity].
  cbn [app]. rewrite trace_bind, trace_store.
  destruct (value (store _ i _)); reflexivity.
Qed.

Lemma expected_value_step_frame (i j : Z) (g g' : Globals) :
  value (expected_value_step i j g) = Some g' ->
  g_rgProbability g' = g_rgProbability g.
Proof.
  unfold expected_value_step. rewrite value_bind.
  destruct (value (load2 g_rgCatchPayOut i j)) as [dPayout|]; [|discriminate].
  destruct (_ <? dPayout)%float; [|intros H; injection H as <-; reflexivity].
  rewrite value_bind.
  destruct (value (load2 _ i (j + 1))); [|discriminate].
  rewrite value_bind. destruct (value (load _ i)); [|discriminate].
  rewrite value_bind. destruct (value (store _ i _)); [|discriminate].
  intros H. injection H as <-. reflexivity.
Qed.

Lemma probability_step_frame (i j : Z) (g g' : Globals) :
  value (probability_step i j g) = Some g' ->
  g_rgExpectedValue g' = g_rgExpectedValue g.
Proof.
  unfold probability_step. cbv zeta.
  destruct (i + 1 >=? j); [|intros H; injection H as <-; reflexivity].
  rewrite value_bind.
  destruct (value (calcKenoProbability _ _)); [|discriminate].
  rewrite value_bind. destruct (value (store2 _ i j _)); [|discriminate].
  intros H. injection H as <-. reflexivity.
Qed.

(** X13: whatever the contents of the globals, the expected-value loop
    calls none of the combinatorics functions and, when it completes,
    leaves the probability matrix as it found it; the loop that fills
    the matrix, when it completes, leaves the expected-value vector as
    it found it. *)
Theorem loops_keep_to_their_table (g : Globals) :
  trace (fill_expected_values g) = []
  /\ (forall g', value (fill_expected_values g) = Some g' ->
                 g_rgProbability g' = g_rgProbability g)
  /\ (forall g', value (fill_probabilities g) = Some g' ->
                 g_rgExpectedValue g' = g_rgExpectedValue g).
Proof.
  split; [|split].
  - unfold fill_expected_values, for_range.
    apply for_each_silent. intros i s _.
    apply for_each_silent. intros j s' _.
    apply expected_value_step_silent.
  - intros g'. unfold fill_expected_values, for_range.
    apply (for_each_invariant _
             (fun s => g_rgProbability s = g_rgProbability g));
      [|reflexivity].
    intros i s s' _ Hs.
    apply (for_each_invariant _
             (fun s => g_rgProbability s = g_rgProbability g));
      [|exact Hs].
    intros j a b _ Ha Hv.
    rewrite (expected_value_step_frame _ _ _ _ Hv). exact Ha.
  - intros g'. unfold fill_probabilities, for_range.
    apply (for_each_invariant _
             (fun s => g_rgExpectedValue s = g_rgExpectedValue g));
      [|reflexivity].
    intros i s s' _ Hs.
    apply (for_each_invariant _
             (fun s => g_rgExpectedValue s = g_rgExpectedValue g));
      [|exact Hs].
    intros j a b _ Ha Hv.
    rewrite (probability_step_frame _ _ _ _ Hv). exact Ha.
Qed.

Lemma returns_impl {A} (m : W A) (P Q : A -> Prop) :
  (forall a, P a -> Q a) -> returns m P -> returns m Q.
Proof. unfold returns. intros H. destruct (value m); [apply H|exact id]. Qed.

(** Naming every element of a list of known length. *)
Ltac explode_list l H :=
  repeat (destruct l as [|? l]; [discriminate H|];
          cbn [length] in H; apply Nat.succ_inj in H);
  destruct l; [clear H|discriminate H].

(** Naming every cell of well-shaped globals. *)
Ltac explode_globals g H :=
  destruct g as [rgP rgE]; unfold well_shaped in H;
  cbn [g_rgProbability g_rgExpectedValue] in H;
  let HP := fresh "HP" in
  let HR := fresh "HR" in
  let HE := fresh "HE" in
  destruct H as (HP & HR & HE);
  explode_list rgE HE; explode_list rgP HP;
  repeat (apply Forall_cons_iff in HR;
          let Hrow := fresh "Hrow" in destruct HR as [Hrow HR]);
  clear HR;
  repeat match goal with
         | Hrow : length ?row = _ |- _ => explode_list row Hrow
         end.

(** Running a loop on named cells, once. *)
Ltac run_once :=
  match goal with
  | |- returns ?m _ =>
      let v := eval vm_compute in (value m) in
      let Hv := fresh "Hv" in
      assert (Hv : value m = v) by (vm_compute; reflexivity);
      unfold returns; rewrite Hv; clear Hv
  end.

Ltac prove_well_shaped :=
  unfold well_shaped; cbn [g_rgProbability g_rgExpectedValue length];
  repeat split; repeat constructor.

(** What the loop that fills the matrix does to arbitrary well-shaped
    globals. *)
Lemma fill_probabilities_result (g : Globals) :
  well_shaped g ->
  returns (fill_probabilities g) (fun g' =>
    well_shaped g'
    /\ (forall m c, 1 <= m <= 20 -> 0 <= c <= 20 ->
          Probability g' m c
          = if c <=? m then kenoProbability m c else Probability g m c)
    /\ value (fill_probabilities g') = Some g')
  /\ keno_calls (trace (fill_probabilities g)) = triangle.
Proof.
  intros H. explode_globals g H.
  split; [|vm_compute; reflexivity].
  run_once. split; [prove_well_shaped|]. split.
  - intros m c Hm Hc.
    enum_Z m 1 20%nat; enum_Z c 0 21%nat; vm_compute; reflexivity.
  - vm_compute. reflexivity.
Qed.

(** What the expected-value loop does to arbitrary well-shaped
    globals. *)
Lemma fill_expected_values_result (g : Globals) :
  well_shaped g ->
  returns (fill_expected_values g) (fun g' =>
    well_shaped g'
    /\ g_rgProbability g' = g_rgProbability g
    /\ forall spotsMarked, 1 <= spotsMarked <= 9 ->
         ExpectedValue g' spotsMarked
         = expected_value_from (ExpectedValue g spotsMarked) g spotsMarked).
Proof.
  intros H. explode_globals g H.
  run_once. split; [prove_well_shaped|]. split; [reflexivity|].
  intros s Hs. enum_Z s 1 9%nat; vm_compute; reflexivity.
Qed.

Lemma initial_globals_well_shaped : well_shaped initial_globals.
Proof. unfold well_shaped. vm_compute. repeat split; repeat constructor. Qed.

(** X14: started on arrays of the declared dimensions, whatever they
    hold, the loop that fills the matrix completes and keeps the
    dimensions; it overwrites every cell with [caught <= marked] by the
    value of the probability formula and leaves every cell with
    [caught > marked] holding what it held before. *)
Theorem fill_probabilities_overwrites_triangle (g : Globals) :
  well_shaped g ->
  returns (fill_probabilities g) (fun g' =>
    well_shaped g'
    /\ forall m c, 1 <= m <= 20 -> 0 <= c <= 20 ->
         Probability g' m c
         = if c <=? m then kenoProbability m c else Probability g m c).
Proof.
  intros H. pose proof (proj1 (fill_probabilities_result g H)) as Hr.
  revert Hr. apply returns_impl. intros g' (Hs & Hc & _).
  split; assumption.
Qed.

Lemma fill_probabilities_overwrites_triangle_witness :
  well_shaped initial_globals
  /\ returns (fill_probabilities initial_globals) (fun g' =>
       well_shaped g'
       /\ forall m c, 1 <= m <= 20 -> 0 <= c <= 20 ->
            Probability g' m c
            = if c <=? m then kenoProbability m c
              else Probability initial_globals m c).
Proof.
  split; [exact initial_globals_well_shaped|].
  exact (fill_probabilities_overwrites_triangle
           initial_globals initial_globals_well_shaped).
Defined.

(** X15: filling the matrix is idempotent: run again on the globals a
    first run produced (from any well-shaped start), the loop returns
    those same globals, bit for bit. *)
Theorem fill_probabilities_idempotent (g : Globals) :
  well_shaped g ->
  returns (fill_probabilities g)
          (fun g' => value (fill_probabilities g') = Some g').
Proof.
  intros H. pose proof (proj1 (fill_probabilities_result g H)) as Hr.
  revert Hr. apply returns_impl. intros g' (_ & _ & Hi). exact Hi.
Qed.

Lemma fill_probabilities_idempotent_witness :
  well_shaped initial_globals
  /\ returns (fill_probabilities initial_globals)
             (fun g' => value (fill_probabilities g') = Some g').
Proof.
  split; [exact initial_globals_well_shaped|].
  exact (fill_probabilities_idempotent
           initial_globals initial_globals_well_shaped).
Defined.

Lemma triangle_NoDup : NoDup triangle.
Proof.
  assert (H : nodup pair_eq_dec triangle = triangle)
    by (vm_compute; reflexivity).
  rewrite <- H. apply NoDup_nodup.
Qed.

(** X16: on well-shaped globals the loop calls [calcKenoProbability]
    once for each of the 230 pairs [(marked, caught)] with
    [1 <= marked <= 20] and [0 <= caught <= marked], row by row, and for
    no other pair. *)
Theorem fill_probabilities_calls_each_pair_once (g : Globals) :
  well_shaped g ->
  keno_calls (trace (fill_probabilities g)) = triangle
  /\ NoDup triangle
  /\ length triangle = 230%nat
  /\ forall m c, In (m, c) triangle <-> 1 <= m <= 20 /\ 0 <= c <= m.
Proof.
  intros H. split; [exact (proj2 (fill_probabilities_result g H))|].
  split; [exact triangle_NoDup|]. split; [vm_compute; reflexivity|].
  intros m c. unfold triangle. rewrite in_flat_map. split.
  - intros (m' & Hm' & Hc). apply in_map_iff in Hc.
    destruct Hc as (c' & E & Hc'). injection E as <- <-.
    unfold Zrange in Hm', Hc'.
    apply in_map_iff in Hm'. destruct Hm' as (k & <- & Hk).
    apply in_map_iff in Hc'. destruct Hc' as (k' & <- & Hk').
    apply in_seq in Hk. apply in_seq in Hk'. lia.
  - intros [Hm Hc]. exists m. split; [apply Zrange_In; lia|].
    apply in_map. apply Zrange_In. lia.
Qed.

Lemma fill_probabilities_calls_each_pair_once_witness :
  well_shaped initial_globals
  /\ keno_calls (trace (fill_probabilities initial_globals)) = triangle.
Proof.
  split; [exact initial_globals_well_shaped|].
  exact (proj1 (fill_probabilities_calls_each_pair_once
                  initial_globals initial_globals_well_shaped)).
Defined.

(** X17: started on arrays of the declared dimensions, whatever they
    hold, the expected-value loop completes, keeps the dimensions and
    the matrix, and ADDS to each entry of the vector: entry
    [spotsMarked] ends as the sum of the specification started from the
    value the entry held, not from 0. *)
Theorem fill_expected_values_accumulates (g : Globals) :
  well_shaped g ->
  returns (fill_expected_values g) (fun g' =>
    well_shaped g'
    /\ g_rgProbability g' = g_rgProbability g
    /\ forall spotsMarked, 1 <= spotsMarked <= 9 ->
         ExpectedValue g' spotsMarked
         = expected_value_from (ExpectedValue g spotsMarked) g spotsMarked).
Proof. exact (fill_expected_values_result g). Qed.

Lemma fill_expected_values_accumulates_witness :
  well_shaped final_globals
  /\ returns (fill_expected_values final_globals) (fun g' =>
       well_shaped g'
       /\ g_rgProbability g' = g_rgProbability final_globals
       /\ forall spotsMarked, 1 <= spotsMarked <= 9 ->
            ExpectedValue g' spotsMarked
            = expected_value_from (ExpectedValue final_globals spotsMarked)
                                  final_globals spotsMarked).
Proof.
  assert (H : well_shaped final_globals)
    by (unfold well_shaped; vm_compute; repeat split; repeat constructor).
  split; [exact H|].
  exact (fill_expected_values_accumulates final_globals H).
Defined.

(** * Properties of the output path of [ExportDataToExcel] *)

Module ExportPathFacts.
Import Ascii String ExportPath.
Local Open Scope Z_scope.


Lemma _tcsrchr_absent (s : tstring) (c : ascii) :
  ~ In c s -> _tcsrchr s c = None.
Proof.
  induction s as [|x rest IH]; intros H; [reflexivity|].
  cbn [_tcsrchr]. rewrite IH by (intros Hin; apply H; right; exact Hin).
  destruct (Ascii.eqb_spec x c) as [->|_]; [|reflexivity].
  exfalso. apply H. left. reflexivity.
Qed.

Lemma _tcsrchr_last (p name : tstring) (c : ascii) :
  ~ In c name -> _tcsrchr (p ++ c :: name) c = Some (List.length p).
Proof.
  intros H. induction p as [|x p IH]; cbn [app _tcsrchr List.length].
  - rewrite (_tcsrchr_absent name c H), Ascii.eqb_refl. reflexivity.
  - rewrite IH. reflexivity.
Qed.

Lemma last_char_not (s : tstring) (c : ascii) :
  s <> [] -> ~ In c s ->
  Ascii.eqb (nth (List.length s - 1) s zero) c = false.
Proof.
  intros Hs Hc. apply Ascii.eqb_neq. intros E. apply Hc. rewrite <- E.
  apply nth_In. destruct s; [contradiction|cbn [List.length]; lia].
Qed.

(** Appending [\Data\] to a directory of [n] characters: there is room
    for it and its null up to 253 characters; from 254 on the null is
    written past the array. *)
Lemma _tcsncat_data (dir : tstring) :
  (List.length dir <= 259)%nat ->
  value (_tcsncat dir g_szOutputDataPath
                  (Z.min (_countof g_szOutputDataPath)
                         (_MAX_PATH - _tcslen dir)))
  = if (List.length dir <=? 253)%nat then Some (dir ++ g_szOutputDataPath)
    else None.
Proof.
  intros Hlen. unfold _tcsncat, _tcslen. cbv zeta.
  rewrite length_firstn.
  change (_countof g_szOutputDataPath) with 7.
  change (List.length g_szOutputDataPath) with 6%nat.
  unfold _MAX_PATH.
  destruct (Nat.leb_spec (List.length dir) 253) as [Hle|Hgt].
  - rewrite Z.min_l by lia.
    replace (_ <=? 260) with true by (symmetry; apply Z.leb_le; lia).
    reflexivity.
  - rewrite Z.min_r by lia.
    replace (_ <=? 260) with false by (symmetry; apply Z.leb_gt; lia).
    reflexivity.
Qed.

Lemma default_file_path_cut (szDir dir : tstring) :
  szDir <> [] -> (List.length dir <= 259)%nat ->
  (let nLoc := _tcslen szDir in
   let szDir1 :=
     if Ascii.eqb (nth (Z.to_nat (nLoc - 1)) szDir zero) backslash
     then terminate_at szDir (Z.to_nat (nLoc - 1))
     else szDir in
   match _tcsrchr szDir1 backslash with
   | Some k => terminate_at szDir1 k
   | None => szDir1
   end) = dir ->
  value (default_file_path true szDir)
  = if (List.length dir <=? 253)%nat then Some (dir ++ g_szOutputDataPath)
    else None.
Proof.
  intros Hne Hlen Hcut. unfold default_file_path.
  replace (_tcslen szDir =? 0) with false
    by (symmetry; apply Z.eqb_neq; unfold _tcslen;
        destruct szDir; [contradiction|cbn [List.length]; lia]).
  cbv zeta in Hcut |- *. rewrite Hcut. apply _tcsncat_data. exact Hlen.
Qed.

Lemma strip_trailing (s : tstring) (b : bool) :
  (b = false -> s <> [] /\ Ascii.eqb (nth (List.length s - 1) s zero) backslash = false) ->
  let szDir := s ++ trailing_backslash b in
  let nLoc := _tcslen szDir in
  (if Ascii.eqb (nth (Z.to_nat (nLoc - 1)) szDir zero) backslash
   then terminate_at szDir (Z.to_nat (nLoc - 1))
   else szDir) = s.
Proof.
  intros Hb. cbv zeta. unfold _tcslen, terminate_at.
  destruct b; cbn [trailing_backslash].
  - rewrite length_app. cbn [List.length].
    replace (Z.to_nat (Z.of_nat (List.length s + 1) - 1)) with (List.length s) by lia.
    rewrite app_nth2, Nat.sub_diag by lia. cbn [nth].
    rewrite Ascii.eqb_refl, firstn_app, Nat.sub_diag, firstn_all.
    cbn [firstn]. apply app_nil_r.
  - rewrite app_nil_r.
    replace (Z.to_nat (Z.of_nat (List.length s) - 1)) with (List.length s - 1)%nat by lia.
    destruct (Hb eq_refl) as [_ ->]. reflexivity.
Qed.


(** The buffer after the two cuts is a prefix of what it held. *)
Lemma cut_is_prefix (szDir : tstring) :
  exists k,
    (let nLoc := _tcslen szDir in
     let szDir1 :=
       if Ascii.eqb (nth (Z.to_nat (nLoc - 1)) szDir zero) backslash
       then terminate_at szDir (Z.to_nat (nLoc - 1))
       else szDir in
     match _tcsrchr szDir1 backslash with
     | Some k => terminate_at szDir1 k
     | None => szDir1
     end) = firstn k szDir.
Proof.
  cbv zeta. unfold terminate_at.
  set (n := Z.to_nat (_tcslen szDir - 1)).
  destruct (Ascii.eqb (nth n szDir zero) backslash).
  - destruct (_tcsrchr (firstn n szDir) backslash) as [k|].
    + exists (Nat.min k n). apply firstn_firstn.
    + exists n. reflexivity.
  - destruct (_tcsrchr szDir backslash) as [k|].
    + exists k. reflexivity.
    + exists (List.length szDir). symmetry. apply firstn_all.
Qed.

Lemma default_file_path_parent_value
      (parent name : tstring) (trailing : bool) :
  ~ In backslash name ->
  name <> [] \/ trailing = true ->
  (List.length (parent ++ backslash :: name ++ trailing_backslash trailing)
   <= 259)%nat ->
  value (default_file_path true
           (parent ++ backslash :: name ++ trailing_backslash trailing))
  = if (List.length parent <=? 253)%nat
    then Some (parent ++ g_szOutputDataPath)
    else None.
Proof.
  intros Hname Hcanon Hlen.
  assert (Hlp : (List.length parent <= 259)%nat)
    by (rewrite length_app in Hlen; lia).
  apply default_file_path_cut; [destruct parent; discriminate|exact Hlp|].
  change (parent ++ backslash :: name ++ trailing_backslash trailing)
    with (parent ++ (backslash :: name) ++ trailing_backslash trailing).
  rewrite app_assoc. cbv zeta.
  rewrite (strip_trailing (parent ++ backslash :: name) trailing).
  - rewrite _tcsrchr_last by exact Hname.
    unfold terminate_at.
    rewrite firstn_app, Nat.sub_diag, firstn_all. cbn [firstn].
    apply app_nil_r.
  - intros ->. destruct Hcanon as [Hne|Hf]; [|discriminate Hf].
    split; [destruct parent; discriminate|].
    rewrite length_app. cbn [List.length].
    rewrite app_nth2 by lia.
    replace (List.length parent + S (List.length name) - 1
             - List.length parent)%nat
      with (S (List.length name - 1)) by (destruct name; [contradiction|cbn [List.length]; lia]).
    cbn [nth]. apply last_char_not; assumption.
Qed.

(** X18: a path [parent\name] or [parent\name\], with no backslash in
    [name], gives the default directory [parent\Data\] as long as
    [parent] has at most 253 characters; with 254 or more the null that
    ends the concatenation is written past the end of [szDir]. *)
Theorem default_file_path_of_parent (parent name : tstring) (trailing : bool) :
  ~ In backslash name ->
  name <> [] \/ trailing = true ->
  (List.length (parent ++ backslash :: name ++ trailing_backslash trailing)
   <= 259)%nat ->
  value (default_file_path true
           (parent ++ backslash :: name ++ trailing_backslash trailing))
  = if (List.length parent <=? 253)%nat
    then Some (parent ++ g_szOutputDataPath)
    else None.
Proof. exact (default_file_path_parent_value parent name trailing). Qed.

Lemma default_file_path_of_parent_witness :
  ~ In backslash (list_ascii_of_string "Debug")
  /\ (list_ascii_of_string "Debug" <> [] \/ true = true)
  /\ (List.length (list_ascii_of_string "C:\Keno" ++ backslash
                   :: list_ascii_of_string "Debug" ++ trailing_backslash true)
      <= 259)%nat
  /\ value (default_file_path true
              (list_ascii_of_string "C:\Keno" ++ backslash
               :: list_ascii_of_string "Debug" ++ trailing_backslash true))
     = if (List.length (list_ascii_of_string "C:\Keno") <=? 253)%nat
       then Some (list_ascii_of_string "C:\Keno" ++ g_szOutputDataPath)
       else None.
Proof.
  assert (H1 : ~ In backslash (list_ascii_of_string "Debug"))
    by (cbn; intuition discriminate).
  assert (H2 : list_ascii_of_string "Debug" <> [] \/ true = true)
    by (right; reflexivity).
  assert (H3 : (List.length (list_ascii_of_string "C:\Keno" ++ backslash
                   :: list_ascii_of_string "Debug" ++ trailing_backslash true)
                <= 259)%nat) by (cbn; lia).
  split; [exact H1|]. split; [exact H2|]. split; [exact H3|].
  exact (default_file_path_of_parent _ _ _ H1 H2 H3).
Defined.

Example default_file_path_example :
  value (default_file_path true (list_ascii_of_string "C:\Keno\Debug\"))
  = Some (list_ascii_of_string "C:\Keno\Data\").
Proof. vm_compute. reflexivity. Qed.

(** X19: a path without any backslash (but perhaps a final one) is kept
    whole, minus that final backslash, and [\Data\] appended to it, as
    long as it has at most 253 characters; a longer one overruns
    [szDir]. *)
Theorem default_file_path_without_separator (name : tstring) (trailing : bool) :
  ~ In backslash name ->
  name <> [] \/ trailing = true ->
  (List.length (name ++ trailing_backslash trailing) <= 259)%nat ->
  value (default_file_path true (name ++ trailing_backslash trailing))
  = if (List.length name <=? 253)%nat
    then Some (name ++ g_szOutputDataPath)
    else None.
Proof.
  intros Hname Hcanon Hlen.
  assert (Hlp : (List.length name <= 259)%nat)
    by (rewrite length_app in Hlen; lia).
  apply default_file_path_cut; [|exact Hlp|].
  - destruct Hcanon as [Hne| ->]; [destruct name; [contradiction|discriminate]|].
    destruct name; discriminate.
  - cbv zeta. rewrite (strip_trailing name trailing).
    + rewrite _tcsrchr_absent by exact Hname. reflexivity.
    + intros ->. destruct Hcanon as [Hne|Hf]; [|discriminate Hf].
      split; [exact Hne|]. apply last_char_not; assumption.
Qed.

Lemma default_file_path_without_separator_witness :
  ~ In backslash (list_ascii_of_string "Keno")
  /\ (list_ascii_of_string "Keno" <> [] \/ false = true)
  /\ (List.length (list_ascii_of_string "Keno" ++ trailing_backslash false)
      <= 259)%nat
  /\ value (default_file_path true
              (list_ascii_of_string "Keno" ++ trailing_backslash false))
     = if (List.length (list_ascii_of_string "Keno") <=? 253)%nat
       then Some (list_ascii_of_string "Keno" ++ g_szOutputDataPath)
       else None.
Proof.
  assert (H1 : ~ In backslash (list_ascii_of_string "Keno"))
    by (cbn; intuition discriminate).
  assert (H2 : list_ascii_of_string "Keno" <> [] \/ false = true)
    by (left; discriminate).
  assert (H3 : (List.length (list_ascii_of_string "Keno"
                             ++ trailing_backslash false) <= 259)%nat)
    by (cbn; lia).
  split; [exact H1|]. split; [exact H2|]. split; [exact H3|].
  exact (default_file_path_without_separator _ _ H1 H2 H3).
Defined.

(** X20: whatever [GetModulePath] left in [szDir], if it is at most 253
    characters long the directory is computed without overrunning the
    buffer; it has at most 259 characters and, for a non-empty path, it
    is a prefix of that path followed by [\Data\]. *)
Theorem default_file_path_safe (szDir : tstring) :
  (List.length szDir <= 253)%nat ->
  returns (default_file_path true szDir)
    (fun dir => (List.length dir <= 259)%nat
                /\ (szDir = [] -> dir = [])
                /\ (szDir <> [] ->
                    exists k, dir = firstn k szDir ++ g_szOutputDataPath)).
Proof.
  intros Hlen. unfold returns.
  destruct szDir as [|x rest] eqn:E.
  - cbn. split; [lia|]. split; [reflexivity|]. intros H. contradiction.
  - rewrite <- E in *. destruct (cut_is_prefix szDir) as [k Hk].
    assert (Hne : szDir <> []) by (rewrite E; discriminate).
    assert (Hfl : (List.length (firstn k szDir) <= 253)%nat)
      by (rewrite length_firstn; lia).
    rewrite (default_file_path_cut szDir (firstn k szDir) Hne ltac:(lia) Hk).
    replace (List.length (firstn k szDir) <=? 253)%nat with true
      by (symmetry; apply Nat.leb_le; exact Hfl).
    split; [|split].
    + rewrite length_app. change (List.length g_szOutputDataPath) with 6%nat. lia.
    + intros H. contradiction.
    + intros _. exists k. reflexivity.
Qed.

Lemma default_file_path_safe_witness :
  (List.length (list_ascii_of_string "C:\Keno\Debug\") <= 253)%nat
  /\ returns (default_file_path true (list_ascii_of_string "C:\Keno\Debug\"))
       (fun dir => (List.length dir <= 259)%nat
                   /\ (list_ascii_of_string "C:\Keno\Debug\" = [] -> dir = [])
                   /\ (list_ascii_of_string "C:\Keno\Debug\" <> [] ->
                       exists k, dir = firstn k (list_ascii_of_string "C:\Keno\Debug\")
                                       ++ g_szOutputDataPath)).
Proof.
  assert (H : (List.length (list_ascii_of_string "C:\Keno\Debug\") <= 253)%nat)
    by (cbn; lia).
  split; [exact H|]. exact (default_file_path_safe _ H).
Defined.

Lemma save_name_value (szDir : tstring) :
  save_name szDir
  = ret (if ((1 <=? List.length szDir) && (List.length szDir <=? 249))%nat
         then (szDir ++ g_szFileName, g_szFileName)
         else (szDir, szTempFileName)).
Proof.
  unfold save_name, _tcsncat, _tcslen. cbv zeta.
  change (_countof g_szFileName) with 10.
  change (firstn (Z.to_nat 10) g_szFileName) with g_szFileName.
  change (List.length g_szFileName) with 9%nat. unfold _MAX_PATH.
  destruct (Nat.leb_spec 1 (List.length szDir)) as [H1|H1];
    destruct (Nat.leb_spec (List.length szDir) 249) as [H2|H2];
    cbn [andb].
  - replace (_ =? 0) with false by (symmetry; apply Z.eqb_neq; lia).
    replace (_ <? 260) with true by (symmetry; apply Z.ltb_lt; lia).
    cbn [negb andb].
    replace (_ <=? 260) with true by (symmetry; apply Z.leb_le; lia).
    reflexivity.
  - replace (_ =? 0) with false by (symmetry; apply Z.eqb_neq; lia).
    replace (_ <? 260) with false by (symmetry; apply Z.ltb_ge; lia).
    reflexivity.
  - replace (_ =? 0) with true by (symmetry; apply Z.eqb_eq; lia).
    reflexivity.
  - replace (_ =? 0) with true by (symmetry; apply Z.eqb_eq; lia).
    reflexivity.
Qed.

(** X21: the end of [ExportDataToExcel] never overruns [szDir]: its
    guard leaves room for [Keno.xlsx] and the null.  [SaveAs] is handed
    the bare name [Keno.xlsx] when [szDir] holds 1 to 249 characters and
    [C:\Temp\Keno.xlsx] otherwise; the full path built in [szDir] is
    never what it is handed. *)
Theorem save_name_cases (szDir : tstring) :
  save_name szDir
  = ret (if ((1 <=? List.length szDir) && (List.length szDir <=? 249))%nat
         then (szDir ++ g_szFileName, g_szFileName)
         else (szDir, szTempFileName))
  /\ returns (save_name szDir) (fun r => snd r <> fst r).
Proof.
  split; [exact (save_name_value szDir)|].
  unfold returns. rewrite save_name_value. cbn [value snd ret fst].
  destruct (Nat.leb_spec 1 (List.length szDir)) as [H1|H1];
    destruct (Nat.leb_spec (List.length szDir) 249) as [H2|H2];
    cbn [andb fst snd]; intros E;
    apply (f_equal (@List.length ascii)) in E;
    try (rewrite length_app in E);
    change (List.length szTempFileName) with 17%nat in E;
    change (List.length g_szFileName) with 9%nat in E; lia.
Qed.

(** X22: where the workbook goes.  For a path [parent\name] or
    [parent\name\] whose [parent] has at most 253 characters, the
    default directory is [parent\Data\]; the workbook is saved under
    the bare name [Keno.xlsx] when [parent] has at most 243 characters
    and as [C:\Temp\Keno.xlsx] when it has more.  With no module path
    at all the default directory is empty and the workbook is saved as
    [C:\Temp\Keno.xlsx]. *)
Theorem export_paths_destination
        (parent name : tstring) (trailing : bool) :
  ~ In backslash name ->
  name <> [] \/ trailing = true ->
  (List.length (parent ++ backslash :: name ++ trailing_backslash trailing)
   <= 259)%nat ->
  (List.length parent <= 253)%nat ->
  value (export_paths true
           (parent ++ backslash :: name ++ trailing_backslash trailing))
  = Some (parent ++ g_szOutputDataPath,
          if (List.length parent <=? 243)%nat
          then g_szFileName else szTempFileName)
  /\ forall bGotModulePath,
       value (export_paths bGotModulePath []) = Some ([], szTempFileName).
Proof.
  intros Hname Hcanon Hlen Hlp. split.
  - unfold export_paths.
    rewrite value_bind, default_file_path_parent_value by assumption.
    replace (List.length parent <=? 253)%nat with true
      by (symmetry; apply Nat.leb_le; exact Hlp).
    rewrite value_bind, save_name_value. cbn [value snd ret].
    rewrite length_app. change (List.length g_szOutputDataPath) with 6%nat.
    replace (1 <=? List.length parent + 6)%nat with true
      by (symmetry; apply Nat.leb_le; lia).
    cbn [andb].
    destruct (Nat.leb_spec (List.length parent) 243) as [H|H].
    + replace (List.length parent + 6 <=? 249)%nat with true
        by (symmetry; apply Nat.leb_le; lia).
      reflexivity.
    + replace (List.length parent + 6 <=? 249)%nat with false
        by (symmetry; apply Nat.leb_gt; lia).
      reflexivity.
  - intros [|]; vm_compute; reflexivity.
Qed.

Lemma export_paths_destination_witness :
  ~ In backslash (list_ascii_of_string "Debug")
  /\ (list_ascii_of_string "Debug" <> [] \/ true = true)
  /\ (List.length (list_ascii_of_string "C:\Keno" ++ backslash
                   :: list_ascii_of_string "Debug" ++ trailing_backslash true)
      <= 259)%nat
  /\ (List.length (list_ascii_of_string "C:\Keno") <= 253)%nat
  /\ value (export_paths true
              (list_ascii_of_string "C:\Keno" ++ backslash
               :: list_ascii_of_string "Debug" ++ trailing_backslash true))
     = Some (list_ascii_of_string "C:\Keno" ++ g_szOutputDataPath,
             if (List.length (list_ascii_of_string "C:\Keno") <=? 243)%nat
             then g_szFileName else szTempFileName).
Proof.
  assert (H1 : ~ In backslash (list_ascii_of_string "Debug"))
    by (cbn; intuition discriminate).
  assert (H2 : list_ascii_of_string "Debug" <> [] \/ true = true)
    by (right; reflexivity).
  assert (H3 : (List.length (list_ascii_of_string "C:\Keno" ++ backslash
                   :: list_ascii_of_string "Debug" ++ trailing_backslash true)
                <= 259)%nat) by (cbn; lia).
  assert (H4 : (List.length (list_ascii_of_string "C:\Keno") <= 253)%nat)
    by (cbn; lia).
  split; [exact H1|]. split; [exact H2|]. split; [exact H3|].
  split; [exact H4|].
  exact (proj1 (export_paths_destination _ _ _ H1 H2 H3 H4)).
Defined.

End ExportPathFacts.

(** * [calcPartialFactorial] against the integer product *)

Lemma descending_terms_S (t : Z) (k : nat) :
  descending_terms t (S k) = t :: descending_terms (t - 1) k.
Proof.
  unfold descending_terms. cbn [seq map]. rewrite Z.sub_0_r. f_equal.
  rewrite <- seq_shift, map_map. apply map_ext. intros i. lia.
Qed.

Lemma descending_terms_In (t : Z) (k : nat) (x : Z) :
  In x (descending_terms t k) <-> t - Z.of_nat k < x <= t.
Proof.
  unfold descending_terms. rewrite in_map_iff. split.
  - intros (i & <- & Hi). apply in_seq in Hi. lia.
  - intros H. exists (Z.to_nat (t - x)). split; [lia|]. apply in_seq. lia.
Qed.

Lemma all_from_sound (P : Z -> bool) (steps : nat) :
  forall t, all_from P steps t = true ->
  forall z, t <= z < t + Z.of_nat steps -> P z = true.
Proof.
  induction steps as [|steps IH]; intros t H z Hz; [lia|].
  cbn [all_from] in H. apply andb_prop in H. destruct H as [Ht Hrest].
  destruct (Z.eq_dec z t) as [->|Hne]; [exact Ht|].
  apply (IH (t + 1) Hrest). lia.
Qed.

(** The scan covers every prefix of the product. *)
Lemma scan_sound (steps : nat) :
  forall t acc exact,
    scan steps t acc exact = true ->
    forall j, (j <= steps)%nat ->
      check_against (fold_left times_term (descending_terms t j) acc)
                    (fold_left Z.mul (descending_terms t j) exact) = true.
Proof.
  induction steps as [|steps IH]; intros t acc exact H j Hj;
    cbn [scan] in H; apply andb_prop in H; destruct H as [H0 Hrest].
  - replace j with 0%nat by lia. exact H0.
  - destruct j as [|j]; [exact H0|].
    rewrite descending_terms_S. cbn [fold_left].
    apply (IH _ _ _ Hrest). lia.
Qed.

(** ** What the check says in the rationals *)

Lemma ratio_close (N E : Z) (d : positive) :
  Z.abs (N - E * Z.pos d) * 2 ^ 49 <= Z.abs E * Z.pos d ->
  (Qabs ((N # d) - inject_Z E)
   <= Qabs (inject_Z E) * (1 # 562949953421312))%Q.
Proof.
  intros H. unfold Qle, Qabs, Qminus, Qplus, Qopp, Qmult, inject_Z.
  cbn [Qnum Qden]. rewrite ?Pos.mul_1_l, ?Pos.mul_1_r, ?Z.mul_1_r.
  change (Z.pos 562949953421312) with (2 ^ 49).
  replace (N + - E * Z.pos d) with (N - E * Z.pos d) by ring.
  nia.
Qed.

Lemma ratio_equal (N E : Z) (d : positive) :
  N = E * Z.pos d -> ((N # d) == inject_Z E)%Q.
Proof.
  intros ->. unfold Qeq, inject_Z. cbn [Qnum Qden]. ring.
Qed.

Lemma power_of_two_negative (p : positive) :
  (Qpower 2 (Z.neg p) == 1 # (2 ^ p))%Q.
Proof.
  change (Z.neg p) with (- Z.pos p). rewrite Qpower_opp.
  change 2%Q with (inject_Z 2).
  rewrite <- Zpower_Qpower by lia.
  rewrite <- Pos2Z.inj_pow. reflexivity.
Qed.

Lemma power_of_two_nonnegative (e : Z) :
  0 <= e -> (Qpower 2 e == inject_Z (2 ^ e))%Q.
Proof.
  intros He. change 2%Q with (inject_Z 2).
  rewrite <- Zpower_Qpower by exact He. reflexivity.
Qed.

(** The rational value of a finite double, as a fraction. *)
Lemma finite_value_negative (s : bool) (m p : positive) :
  exists q, Double.SF2Q (S754_finite s m (Z.neg p)) = Some q
            /\ (q == ((if s then Z.neg m else Z.pos m) # (2 ^ p)))%Q.
Proof.
  pose proof (power_of_two_negative p) as Hp.
  destruct s; cbn [Double.SF2Q]; cbv zeta; eexists;
    (split; [reflexivity|]); rewrite Hp;
    unfold Qeq, Qopp, Qmult, inject_Z; cbn [Qnum Qden]; lia.
Qed.

Lemma finite_value_nonnegative (s : bool) (m : positive) (e : Z) :
  0 <= e ->
  exists q, Double.SF2Q (S754_finite s m e) = Some q
            /\ (q == (Z.shiftl (if s then Z.neg m else Z.pos m) e # 1))%Q.
Proof.
  intros He. pose proof (power_of_two_nonnegative e He) as Hp.
  rewrite Z.shiftl_mul_pow2 by exact He.
  destruct s; cbn [Double.SF2Q]; cbv zeta; eexists;
    (split; [reflexivity|]); rewrite Hp;
    unfold Qeq, Qopp, Qmult, inject_Z; cbn [Qnum Qden]; lia.
Qed.

Lemma check_against_spec (f : float) (exact : Z) :
  check_against f exact = true ->
  within_2_49 f exact /\ (exact < 2 ^ 53 -> exactly f exact).
Proof.
  unfold check_against, within_2_49, exactly, Double.to_Q.
  destruct (Prim2SF f) as [s| | |s m e]; try discriminate.
  - intros H. apply Z.eqb_eq in H. subst exact. cbn [Double.SF2Q].
    split; [|intros _]; exists 0%Q; (split; [reflexivity|]);
      [apply Qle_bool_iff|]; reflexivity.
  - cbv zeta. set (v := if s then Z.neg m else Z.pos m).
    destruct e as [|p|p]; intros H; apply andb_prop in H;
      destruct H as [Hclose Hexact]; apply Z.leb_le in Hclose;
      rewrite Z.shiftl_mul_pow2 in Hclose by lia;
      apply orb_prop in Hexact.
    1: destruct (finite_value_nonnegative s m 0 ltac:(lia))
         as (q & Hq & Hv); fold v in Hv.
    2: destruct (finite_value_nonnegative s m (Z.pos p) ltac:(lia))
         as (q & Hq & Hv); fold v in Hv.
    3: destruct (finite_value_negative s m p) as (q & Hq & Hv); fold v in Hv.
    all: rewrite Hq; split;
      [ exists q; split; [reflexivity|]; rewrite Hv;
        apply ratio_close; lia
      | intros Hsmall; exists q; split; [reflexivity|]; rewrite Hv;
        apply ratio_equal;
        destruct Hexact as [Hbig|Heq];
        [apply Z.leb_le in Hbig; lia|apply Z.eqb_eq in Heq; lia] ].
Qed.

Lemma check_against_zero (f : float) :
  check_against f 0 = true -> is_zero_double f.
Proof.
  unfold check_against, is_zero_double.
  destruct (Prim2SF f) as [s| | |s m e]; try discriminate.
  - intros _. exists s. reflexivity.
  - cbv zeta. intros H. exfalso.
    destruct e as [|p|p]; apply andb_prop in H; destruct H as [H _];
      apply Z.leb_le in H; rewrite (Z.shiftl_mul_pow2 _ 49) in H by lia.
    + rewrite Z.shiftl_0_r in H. destruct s; lia.
    + rewrite Z.shiftl_mul_pow2 in H by lia.
      pose proof (Z.pow_pos_nonneg 2 (Z.pos p) ltac:(lia) ltac:(lia)).
      destruct s; nia.
    + destruct s; lia.
Qed.

(** The scan, run on every base up to 170 with up to [n + 1] factors. *)
Lemma scan_upto_170 :
  all_from (fun n => scan (Z.to_nat (n + 1)) n 1%float 1) 171 0 = true.
Proof. vm_cast_no_check (eq_refl true). Qed.

(** The negative factors a 16-bit term count can reach convert to doubles
    that are neither NaN nor infinite. *)
Lemma negative_factors_finite :
  all_from (fun t => neither_nan_nor_infinite (Double.of_int t))
           (Z.to_nat 65535) (-65535) = true.
Proof. vm_cast_no_check (eq_refl true). Qed.

Lemma is_zero_double_to_Q (f : float) :
  is_zero_double f -> Double.to_Q f = Some 0%Q.
Proof. intros [s Hs]. unfold Double.to_Q. rewrite Hs. reflexivity. Qed.

(** A zero stays a zero under a factor that is neither NaN nor
    infinite. *)
Lemma zero_times_negative (acc : float) (t : Z) :
  -65535 <= t <= -1 -> is_zero_double acc -> is_zero_double (times_term acc t).
Proof.
  intros Ht [s Hs].
  pose proof (all_from_sound _ _ _ negative_factors_finite t ltac:(lia)) as Hf.
  cbv beta in Hf. unfold neither_nan_nor_infinite in Hf.
  apply andb_prop in Hf. destruct Hf as [Hnan Hinf].
  apply negb_true_iff in Hnan. apply negb_true_iff in Hinf.
  unfold is_zero_double, times_term.
  rewrite FloatAxioms.mul_spec, Hs.
  unfold Prim2SF. rewrite Hnan.
  destruct (PrimFloat.is_zero (Double.of_int t));
    [eexists; reflexivity|].
  rewrite Hinf. destruct (Z.frexp (Double.of_int t)) as [r ex].
  destruct (shr_fexp _ _ _ _ _) as [shr e'].
  destruct (shr_m shr); eexists; reflexivity.
Qed.

Lemma zero_stays_zero (l : list Z) :
  forall acc, Forall (fun t => -65535 <= t <= -1) l ->
              is_zero_double acc -> is_zero_double (fold_left times_term l acc).
Proof.
  induction l as [|t l IH]; intros acc Hl Hz; cbn [fold_left]; [exact Hz|].
  inversion Hl as [|? ? Ht Hl']; subst.
  apply IH; [exact Hl'|]. apply zero_times_negative; assumption.
Qed.

Lemma fold_mul_zero (l : list Z) : fold_left Z.mul l 0 = 0.
Proof. induction l as [|x l IH]; cbn [fold_left]; [reflexivity|exact IH]. Qed.

Lemma product_zero (n numTerms : Z) :
  0 <= n < numTerms -> product n numTerms = 0.
Proof.
  intros H. unfold product, product_exact.
  assert (Hin : In 0 (descending_terms n (Z.to_nat numTerms)))
    by (apply descending_terms_In; lia).
  apply in_split in Hin. destruct Hin as (l1 & l2 & ->).
  rewrite fold_left_app. cbn [fold_left]. rewrite Z.mul_0_r.
  apply fold_mul_zero.
Qed.

(** On every base up to 170 and for every 16-bit term count, the double
    product is finite, within 2^-49 of the integer product, and equal to
    it when it is below 2^53. *)
Lemma partialFactorial_checked (n numTerms : Z) :
  0 <= n <= 170 -> is_WORD numTerms ->
  within_2_49 (partialFactorial n numTerms) (product n numTerms)
  /\ (product n numTerms < 2 ^ 53 ->
      exactly (partialFactorial n numTerms) (product n numTerms)).
Proof.
  intros Hn Hk. unfold is_WORD in Hk.
  pose proof (all_from_sound _ _ _ scan_upto_170 n ltac:(lia)) as Hscan.
  cbv beta in Hscan.
  destruct (Z_le_gt_dec numTerms (n + 1)) as [Hle|Hgt].
  - apply check_against_spec.
    apply (scan_sound _ _ _ _ Hscan (Z.to_nat numTerms)). lia.
  - pose proof (scan_sound _ _ _ _ Hscan (Z.to_nat (n + 1))
                  (Nat.le_refl _)) as H0.
    fold (product_exact (descending_terms n (Z.to_nat (n + 1)))) in H0.
    fold (product n (n + 1)) in H0.
    rewrite product_zero in H0 by lia.
    assert (Hz0 : is_zero_double
                    (fold_left times_term
                       (descending_terms n (Z.to_nat (n + 1))) 1%float)).
    { apply check_against_zero. exact H0. }
    assert (Hz : is_zero_double (partialFactorial n numTerms)).
    { unfold partialFactorial, product_as_double, descending_terms.
      replace (Z.to_nat numTerms)
        with (Z.to_nat (n + 1) + Z.to_nat (numTerms - (n + 1)))%nat by lia.
      rewrite seq_app, map_app, fold_left_app.
      apply zero_stays_zero; [|exact Hz0].
      apply Forall_forall. intros x Hx. apply in_map_iff in Hx.
      destruct Hx as (i & <- & Hi). apply in_seq in Hi. lia. }
    rewrite product_zero by lia.
    split; [|intros _]; exists 0%Q;
      (split; [apply is_zero_double_to_Q; exact Hz|]);
      [apply Qle_bool_iff|]; reflexivity.
Qed.

(** C8 (as the code has it): [calcPartialFactorial n numTerms] returns
    the product of the terms [n], [n - 1], ..., [n - numTerms + 1]
    accumulated in double precision from the highest term down.  For
    every [n <= 170] and every term count that double is finite, within
    a relative error of 2^-49 of the integer product, and equal to it
    whenever it is below 2^53.  With no term at all the result is [1.0]
    at once, whatever [n] is. *)
Theorem calcPartialFactorial_product (n numTerms : Z) :
  is_WORD n -> is_WORD numTerms ->
  returns (calcPartialFactorial n numTerms) (fun fResult =>
    fResult = partialFactorial n numTerms
    /\ (n <= 170 ->
        within_2_49 fResult (product n numTerms)
        /\ (product n numTerms < 2 ^ 53 ->
            exactly fResult (product n numTerms))))
  /\ calcPartialFactorial n 0 = ([EvPartialFactorial n 0], Some 1%float).
Proof.
  intros Hn Hk. split; [|reflexivity].
  unfold returns. rewrite calcPartialFactorial_value by exact Hk.
  split; [reflexivity|].
  intros H170. apply partialFactorial_checked; [|exact Hk].
  unfold is_WORD in Hn. lia.
Qed.

Lemma calcPartialFactorial_product_witness :
  is_WORD 80 /\ is_WORD 20
  /\ returns (calcPartialFactorial 80 20) (fun fResult =>
       fResult = partialFactorial 80 20
       /\ (80 <= 170 ->
           within_2_49 fResult (product 80 20)
           /\ (product 80 20 < 2 ^ 53 ->
               exactly fResult (product 80 20))))
  /\ calcPartialFactorial 80 0 = ([EvPartialFactorial 80 0], Some 1%float).
Proof.
  assert (H1 : is_WORD 80) by (unfold is_WORD; lia).
  assert (H2 : is_WORD 20) by (unfold is_WORD; lia).
  split; [exact H1|]. split; [exact H2|].
  exact (calcPartialFactorial_product 80 20 H1 H2).
Defined.

(** C8 (as stated) fails at [(200, 201)]: the integer product is 0, its
    last factor being [200 - 200], but the running double product has
    overflowed to infinity long before it meets that factor, and the
    result is NaN.  At [(171, 171)] the result is infinity. *)
Lemma calcPartialFactorial_200_201_not_product :
  returns (calcPartialFactorial 200 201)
          (fun fResult => PrimFloat.is_nan fResult = true
                          /\ Double.to_Q fResult = None)
  /\ product 200 201 = 0
  /\ value (calcPartialFactorial 171 171) = Some infinity.
Proof. vm_compute. repeat split; reflexivity. Qed.
